(** * ckey: a virtual WebAuthn authenticator with PSK recovery

    A shallow embedding of the credential engine of the browser extension:
    the key-wrap codec and the endpoint slot of the storage module, the
    pools of backup and recovery keys with their delegations, the recovery
    assertion flow, and the creation and assertion flows of the WebAuthn
    engine.

    Asynchronous code is read sequentially: every [await] is a bind of the
    monad [M] below, which threads the persistent stores and the entropy
    source.  A computation ends in a value (a resolved promise), in a
    thrown exception (a rejected promise), or in a promise that never
    settles. *)

From Stdlib Require Import Strings.Byte.
From stdpp Require Import base option list strings gmap.

Local Open Scope string_scope.

(** ** JavaScript values, exceptions and the effect monad *)

(** A [Uint8Array] (or an [ArrayBuffer] viewed as one). *)
Abbreviation bytes := (list byte).

(** What a rejected promise carries.  [Error msg] is [throw new Error(msg)];
    [TypeError], [SyntaxError] and [DOMException] are the exceptions the
    platform raises: a property read on [null] or [undefined],
    [JSON.parse] on something that is no JSON text, and the
    [DOMException]s of WebCrypto named by their [name] field.  [Number n]
    is a promise rejected with a number, as in [reject(status)]. *)
Inductive Exn :=
  | Error (msg : string)
  | TypeError
  | SyntaxError
  | DOMException (name : string)
  | Number (n : nat).

(** How a promise ends.  [Pending] is a promise that is neither resolved
    nor rejected, ever: nothing after an [await] of it runs, and no
    [catch] sees it. *)
Inductive Res (A : Type) :=
  | Ok (a : A)
  | Throw (e : Exn)
  | Pending.
Arguments Ok {A} a.
Arguments Throw {A} e.
Arguments Pending {A}.

Definition is_Ok {A} (r : Res A) : bool :=
  match r with Ok _ => true | Throw _ | Pending => false end.

(** The JSON documents kept in [chrome.storage.sync] are arrays whose
    elements have one of two shapes: an exported pool key [{key, id}] or a
    delegation record. *)
Record JsonWebKey := mkJWK {
  kid : option string;
  jwk_data : bytes
}.

Record ExportKey := mkExportKey {
  ek_key : JsonWebKey;
  ek_id : string
}.

Record Delegation := mkDelegation {
  signature : string;
  backupId : string;
  replacementId : option string;
  replacementKey : JsonWebKey
}.

Inductive JsonItem :=
  | KeyItem (e : ExportKey)
  | DelegationItem (d : Delegation).

(** The state a call runs in.  [local] is [chrome.storage.local] (string
    values), [sync] is [chrome.storage.sync] (its values are JSON arrays),
    [keys] is the area the helper module [storage] keeps wrapped private
    keys in, by credential id, and [entropy]/[cursor] is the random source
    behind [window.crypto]: the bytes it will deliver and how many were
    drawn.  [chrome.runtime.lastError] is taken as unset throughout: the
    key-value store answers every [get] and [set]. *)
Record State := mkState {
  local : gmap string string;
  sync : gmap string (list JsonItem);
  keys : gmap string string;
  entropy : nat → byte;
  cursor : nat
}.

Definition M (A : Type) : Type := State → Res A * State.

Definition ret {A} (a : A) : M A := λ st, (Ok a, st).

Definition throw {A} (e : Exn) : M A := λ st, (Throw e, st).

Definition bind {A B} (m : M A) (k : A → M B) : M B :=
  λ st, match m st with
        | (Ok a, st') => k a st'
        | (Throw e, st') => (Throw e, st')
        | (Pending, st') => (Pending, st')
        end.

(** [p.catch(h)] *)
Definition catch {A} (m : M A) (h : Exn → M A) : M A :=
  λ st, match m st with
        | (Ok a, st') => (Ok a, st')
        | (Throw e, st') => h e st'
        | (Pending, st') => (Pending, st')
        end.

(** [new Promise(async (res, rej) => api(..., async (resp) => { ...;
    res(value) }))]: the body [m] runs inside a callback that is itself an
    [async] function.  An exception raised there rejects the promise of
    the callback, which nobody holds; the promise that the caller awaits
    is then never settled. *)
Definition in_callback {A} (m : M A) : M A :=
  λ st, match m st with
        | (Throw _, st') => (Pending, st')
        | r => r
        end.

(** A promise that nothing settles. *)
Definition never {A} : M A := λ st, (Pending, st).

Definition lift {A} (r : Res A) : M A := λ st, (r, st).

Notation "x <- c1 ;; c2" := (bind c1 (λ x, c2))
  (at level 100, c1 at next level, right associativity).
Notation "c1 ;;; c2" := (bind c1 (λ _, c2))
  (at level 100, right associativity).

(** [for (i = 0; i < xs.length; ++i) { out.push(await f(xs[i])) }] *)
Fixpoint forM {A B} (f : A → M B) (xs : list A) : M (list B) :=
  match xs with
  | [] => ret []
  | x :: xs' => y <- f x ;; ys <- forM f xs' ;; ret (y :: ys)
  end.

(** [chrome.storage.local.get({[k]: dflt}, cb)]: the object handed to the
    callback has exactly the requested key, bound to the stored value or to
    the default.  A value is [None] for [null]. *)
Definition chrome_storage_local_get (k : string) (dflt : option string)
  : M (gmap string (option string)) :=
  λ st, (Ok {[ k := match local st !! k with
                    | Some v => Some v
                    | None => dflt
                    end ]}, st).

(** [chrome.storage.local.set({[k]: v}, cb)] *)
Definition chrome_storage_local_set (k v : string) : M unit :=
  λ st, (Ok tt, mkState (<[k := v]> (local st)) (sync st) (keys st)
                        (entropy st) (cursor st)).

(** [chrome.storage.sync.get(k, cb)]: [resp[k]], [None] for [undefined]. *)
Definition chrome_storage_sync_get (k : string) : M (option (list JsonItem)) :=
  λ st, (Ok (sync st !! k), st).

(** [chrome.storage.sync.set({[k]: JSON.stringify(doc)}, cb)] *)
Definition chrome_storage_sync_set (k : string) (doc : list JsonItem) : M unit :=
  λ st, (Ok tt, mkState (local st) (<[k := doc]> (sync st)) (keys st)
                        (entropy st) (cursor st)).

(** [window.crypto.getRandomValues(new Uint8Array(n))] *)
Definition getRandomValues (n : nat) : M bytes :=
  λ st, (Ok (map (entropy st) (seq (cursor st) n)),
         mkState (local st) (sync st) (keys st) (entropy st) (cursor st + n)).

(** ** WebCrypto keys

    A [CryptoKey] is kept symbolically: its algorithm descriptor, its
    [extractable] flag, its usages and its key material.  The material is
    what [exportKey] hands out, whatever the format: for the format [jwk]
    it stands for the members of the JSON Web Key other than [kid]. *)
Inductive KeyUsage := UsageSign | UsageVerify | UsageWrapKey | UsageUnwrapKey.

(** What [importKey] finds in the members of a JSON Web Key when it is
    asked for a key of an elliptic-curve algorithm: the public key of the
    curve, the private key (the member [d] is there), or no such key (a
    missing member, another key type, another curve, coordinates that are
    no point). *)
Inductive JwkKind := PublicJwk | PrivateJwk | ForeignJwk.

Record KeyAlgorithm := mkAlg {
  alg_name : string;
  namedCurve : string
}.

Record CryptoKey := mkKey {
  algorithm : KeyAlgorithm;
  extractable : bool;
  usages : list KeyUsage;
  material : bytes
}.

(** [Uint8Array.of(n)]: the element is [n] modulo 256. *)
Definition ToUint8 (n : nat) : byte :=
  match Byte.of_nat (n mod 256) with
  | Some b => b
  | None => Byte.x00
  end.

(** A number read out of an array: [None] is [undefined], and [NaN] once
    it went through arithmetic. *)
Definition num_add (a b : option nat) : option nat :=
  match a, b with
  | Some x, Some y => Some (x + y)
  | _, _ => None
  end.

(** [a.subarray(b, e)] and [a.subarray(b)]: bounds are clamped to the
    array, a bound that is [NaN] counts as 0. *)
Definition subarray (a : bytes) (b e : option nat) : bytes :=
  take (default 0 e - default 0 b) (drop (default 0 b) a).

Definition subarray_from (a : bytes) (b : option nat) : bytes :=
  drop (default 0 b) a.

(** [new TextEncoder().encode(s)] and [new TextDecoder().decode(b)]: a
    string is the sequence of its UTF-8 bytes. *)
Definition TextEncoder_encode (s : string) : bytes := String.list_byte_of_string s.
Definition TextDecoder_decode (b : bytes) : string := String.string_of_list_byte b.

(** ** The constants module

    [./constants] is not among the sources: its values are parameters. *)
Class Constants := {
  BD_ENDPOINT : string;
  BACKUP_KEY : string;
  DEFAULT_BD_ENDPOINT : string;
  PIN : string;
  saltLength : nat;
  ivLength : nat;
  keyExportFormat : string
}.

(** The same constants with another PIN. *)
Definition with_PIN (C : Constants) (pin : string) : Constants :=
  {| BD_ENDPOINT := @BD_ENDPOINT C;
     BACKUP_KEY := @BACKUP_KEY C;
     DEFAULT_BD_ENDPOINT := @DEFAULT_BD_ENDPOINT C;
     PIN := pin;
     saltLength := @saltLength C;
     ivLength := @ivLength C;
     keyExportFormat := @keyExportFormat C |}.

(** ** The signing-key capability

    [ICOSECompatibleKey] of [./crypto]: a key pair (either half may be
    missing) tagged with its COSE algorithm identifier. *)
Record ICOSECompatibleKey := mkCompatibleKey {
  cose_algorithm : Z;
  privateKey : option CryptoKey;
  publicKey : option CryptoKey
}.

(** An element of [allowCredentials]. *)
Record PublicKeyCredentialDescriptor := mkDescriptor {
  desc_id : bytes
}.

(** The second argument of [generateClientData]. *)
Record ClientDataExtra := mkExtra {
  extra_origin : string;
  extra_tokenBinding : option string;
  extra_type : string
}.

(** ** The platform

    What the sources call and do not define: the helpers of [./utils], the
    JSON codec on key algorithm descriptors, and the primitives of
    [window.crypto.subtle].  [PBKDF2 pin salt] is the 256-bit AES-GCM key
    that [deriveKey] yields from the raw PIN bytes with SHA-256 and 100000
    iterations; [AES_GCM_decrypt] is [None] when authentication fails.
    [jwk_kind alg data] is how [importKey] reads the members [data] of a
    JSON Web Key for the algorithm [alg].
    [generateKey alg seed] is the pair (private, public) that
    [subtle.generateKey] makes from the random bytes [seed].  The last
    block is what [./crypto] (not among the sources) and the CBOR library
    provide: the wrapper of a key as an [ICOSECompatibleKey], its methods
    [generateClientData], [generateAuthenticatorData] and [sign] (which
    takes the random bytes it uses as its second argument), and the
    encodings. *)
Class Platform := {
  byteArrayToBase64 : bytes → bool → string;
  base64ToByteArray : string → bool → bytes;
  getDomainFromOrigin : string → string;
  btoa : string → string;
  JSON_stringify : KeyAlgorithm → string;
  JSON_parse : string → option KeyAlgorithm;
  PBKDF2 : bytes → bytes → bytes;
  AES_GCM_encrypt : bytes → bytes → bytes → bytes;
  AES_GCM_decrypt : bytes → bytes → bytes → option bytes;
  SHA_256 : bytes → bytes;
  jwk_kind : KeyAlgorithm → bytes → JwkKind;
  generateKey : Z → bytes → CryptoKey * CryptoKey;
  supportedAlgorithm : Z → bool;
  getCompatibleKeyFromCryptoKey : CryptoKey → Res ICOSECompatibleKey;
  generateClientData : ICOSECompatibleKey → bytes → ClientDataExtra → string;
  generateAuthenticatorData :
    ICOSECompatibleKey → string → nat → bytes → option bytes → bytes;
  sign_with : ICOSECompatibleKey → bytes → bytes → Res bytes;
  CBOR_encodeCanonical_attestation : bytes → bytes;
  CBOR_encode_COSE : ICOSECompatibleKey → CryptoKey → bytes;
  CBOR_encode_map : string → bytes → bytes;
  JSON_stringify_credentials : list PublicKeyCredentialDescriptor → string
}.

(** [subtle.exportKey(format, key)] *)
Definition exportKey (format : string) (key : CryptoKey) : Res bytes :=
  if extractable key then Ok (material key)
  else Throw (DOMException "InvalidAccessError").

(** The usages that a key of the algorithm may be given: [verify] for a
    public key; [sign], and at least one usage, for a private key. *)
Definition usages_fit (kind : JwkKind) (use : list KeyUsage) : bool :=
  match kind with
  | PublicJwk =>
      forallb (λ u, match u with UsageVerify => true | _ => false end) use
  | PrivateJwk =>
      forallb (λ u, match u with UsageSign => true | _ => false end) use
      && negb (Nat.eqb (length use) 0)
  | ForeignJwk => false
  end.

(** [subtle.importKey("jwk", data, alg, extractable, usages)] for an
    elliptic-curve algorithm: key data that is no key of the algorithm is
    a [DataError], usages that the key cannot have (and a private key
    without any usage) are a [SyntaxError].  The one call there is asks
    for no usage, so the order of the two checks plays no part. *)
Definition importKey `{Platform} (format : string) (data : bytes)
    (alg : KeyAlgorithm) (ext : bool) (use : list KeyUsage) : Res CryptoKey :=
  match jwk_kind alg data with
  | ForeignJwk => Throw (DOMException "DataError")
  | kind =>
      if usages_fit kind use then Ok (mkKey alg ext use data)
      else Throw (DOMException "SyntaxError")
  end.

(** [subtle.wrapKey(format, key, wrappingKey, {name: 'AES-GCM', iv})] *)
Definition wrapKey `{Platform} (format : string) (key : CryptoKey)
    (wrappingKey iv : bytes) : Res bytes :=
  match exportKey format key with
  | Ok data => Ok (AES_GCM_encrypt wrappingKey iv data)
  | Throw e => Throw e
  | Pending => Pending
  end.

(** [subtle.unwrapKey(format, wrapped, wrappingKey, {name: 'AES-GCM', iv},
    alg, extractable, usages)]: the bytes that authenticate become the
    material of the key, with the algorithm, flag and usages asked for. *)
Definition unwrapKey `{Platform} (format : string) (wrapped wrappingKey iv : bytes)
    (alg : KeyAlgorithm) (ext : bool) (use : list KeyUsage) : Res CryptoKey :=
  match AES_GCM_decrypt wrappingKey iv wrapped with
  | Some data => Ok (mkKey alg ext use data)
  | None => Throw (DOMException "OperationError")
  end.

(** ** The storage module (logger [auth_storage]) *)

(** A credential as [export] serialises it. *)
Record CredentialJson := mkCredentialJson {
  json_id : string;
  json_privateKey : string;
  json_rpId : string;
  json_userHandle : option bytes;
  json_type : string
}.

Record PublicKeyCredentialSource := mkCredSrc {
  src_id : string;
  src_privateKey : CryptoKey;
  src_rpId : string;
  src_userHandle : option bytes;
  src_type : string
}.

Section AuthStorage.
Context {C : Constants} {W : Platform}.

Definition getBDEndpoint : M string :=
  resp <- chrome_storage_local_get BD_ENDPOINT None ;;
  match resp !! BACKUP_KEY with
  | None | Some None =>
      (* resp[BACKUP_KEY] == null *)
      ret DEFAULT_BD_ENDPOINT
  | Some (Some v) => ret v
  end.

Definition setBDEndpoint (endpoint : string) : M unit :=
  chrome_storage_local_set BD_ENDPOINT endpoint.

Definition getWrappingKey (pin : string) (salt : bytes) : bytes :=
  PBKDF2 (TextEncoder_encode pin) salt.

(** [new PublicKeyCredentialSource(id, privateKey, rpId, userHandle)] *)
Definition new_PublicKeyCredentialSource (id : string) (privateKey : CryptoKey)
    (rpId : string) (userHandle : option bytes) : PublicKeyCredentialSource :=
  mkCredSrc id privateKey rpId userHandle "public-key".

(** [PublicKeyCredentialSource.import(json)] *)
Definition import (json : CredentialJson) : Res PublicKeyCredentialSource :=
  let _id := json_id json in
  let _rpId := json_rpId json in
  let _userHandle := json_userHandle json in
  let keyPayload := base64ToByteArray (json_privateKey json) false in
  let saltByteLength := Byte.to_nat <$> keyPayload !! 0 in
  let ivByteLength := Byte.to_nat <$> keyPayload !! 1 in
  let keyAlgorithmByteLength := Byte.to_nat <$> keyPayload !! 2 in
  let offset := Some 3 in
  let salt := subarray keyPayload offset (num_add offset saltByteLength) in
  let offset := num_add offset saltByteLength in
  let iv := subarray keyPayload offset (num_add offset ivByteLength) in
  let offset := num_add offset ivByteLength in
  let keyAlgorithmBytes :=
    subarray keyPayload offset (num_add offset keyAlgorithmByteLength) in
  let offset := num_add offset keyAlgorithmByteLength in
  let keyBytes := subarray_from keyPayload offset in
  let wrappingKey := getWrappingKey PIN salt in
  match JSON_parse (TextDecoder_decode keyAlgorithmBytes) with
  | None => Throw SyntaxError
  | Some unwrappingKeyAlgorithm =>
      match unwrapKey keyExportFormat keyBytes wrappingKey iv
                      unwrappingKeyAlgorithm true [UsageSign] with
      | Throw e => Throw e
      | Pending => Pending
      | Ok _privateKey =>
          Ok (new_PublicKeyCredentialSource _id _privateKey _rpId _userHandle)
      end
  end.

(** The bytes [export] persists in place of the private key. *)
Definition payload_of (salt iv keyAlgorithm wrappedKey : bytes) : bytes :=
  concat [ [ToUint8 saltLength; ToUint8 ivLength; ToUint8 (length keyAlgorithm)];
           salt; iv; keyAlgorithm; wrappedKey ].

(** [credSrc.export()] *)
Definition export (self : PublicKeyCredentialSource) : M CredentialJson :=
  salt <- getRandomValues saltLength ;;
  let wrappingKey := getWrappingKey PIN salt in
  iv <- getRandomValues ivLength ;;
  wrappedKey <- lift (wrapKey keyExportFormat (src_privateKey self) wrappingKey iv) ;;
  let keyAlgorithm :=
    TextEncoder_encode (JSON_stringify (algorithm (src_privateKey self))) in
  let payload := payload_of salt iv keyAlgorithm wrappedKey in
  ret (mkCredentialJson (src_id self) (byteArrayToBase64 payload false)
         (src_rpId self) (src_userHandle self) (src_type self)).

End AuthStorage.

(** ** The key store of [./storage]

    The WebAuthn engine persists private keys through [saveKey],
    [fetchKey] and [keyExists] of [./storage]. *)
Section Storage.
Context {C : Constants} {W : Platform}.

(** Modelled from the spec: [saveKey] of [./storage] is not among the
    sources.  Sections 4.1 and 4.3 (step 10): the private key is wrapped
    under the PIN, with a fresh salt and IV, into the payload layout of
    [export], and persisted under the credential id alone. *)
Definition saveKey (key : string) (privateKey : CryptoKey) (pin : string) : M unit :=
  salt <- getRandomValues saltLength ;;
  let wrappingKey := getWrappingKey pin salt in
  iv <- getRandomValues ivLength ;;
  wrappedKey <- lift (wrapKey keyExportFormat privateKey wrappingKey iv) ;;
  let keyAlgorithm := TextEncoder_encode (JSON_stringify (algorithm privateKey)) in
  let payload := byteArrayToBase64 (payload_of salt iv keyAlgorithm wrappedKey) false in
  λ st, (Ok tt, mkState (local st) (sync st) (<[key := payload]> (keys st))
                        (entropy st) (cursor st)).

(** Modelled from the spec: [fetchKey] of [./storage] is not among the
    sources.  Section 4.3 (assertion, step 3): the payload stored under the
    id is fetched and unwrapped with the PIN, as [import] unwraps it; it
    fails when the id is not bound or the payload does not unwrap. *)
Definition fetchKey (key : string) (pin : string) : M CryptoKey :=
  λ st, match keys st !! key with
        | None => (Throw (Error "key not found"), st)
        | Some payload =>
            match import (C := with_PIN C pin)
                    (mkCredentialJson key payload EmptyString None "public-key") with
            | Ok credSrc => (Ok (src_privateKey credSrc), st)
            | Throw e => (Throw e, st)
            | Pending => (Pending, st)
            end
        end.

(** Modelled from the spec: [keyExists] of [./storage] is not among the
    sources.  Section 4.3 (creation, step 5): whether the id is bound in
    the key store, for whatever relying party. *)
Definition keyExists (key : string) : M bool :=
  λ st, (Ok (bool_decide (is_Some (keys st !! key))), st).

End Storage.

(** ** The signing-key module [./crypto] *)
Section Crypto.
Context {W : Platform}.

(** Modelled from the spec: [getCompatibleKey] of [./crypto] is not among
    the sources.  Section 4.3 (creation, step 4): a fresh key pair for the
    first requested COSE algorithm identifier that the authenticator
    supports. *)
Definition getCompatibleKey (pubKeyCredParams : list Z) : M ICOSECompatibleKey :=
  match List.find supportedAlgorithm pubKeyCredParams with
  | None => throw (Error "No supported algorithm")
  | Some alg =>
      seed <- getRandomValues 32 ;;
      let keyPair := generateKey alg seed in
      ret (mkCompatibleKey alg (Some (fst keyPair)) (Some (snd keyPair)))
  end.

(** [compatibleKey.sign(data)]: the signature primitive of the platform,
    on random bytes drawn from the entropy source. *)
Definition sign (key : ICOSECompatibleKey) (data : bytes) : M bytes :=
  nonce <- getRandomValues 32 ;;
  lift (sign_with key nonce data).

End Crypto.

(** ** The PSK module (imported as [./webauthn_psk]) *)

Definition PSK : string := "psk".
Definition BACKUP : string := "backup".
Definition RECOVERY : string := "recovery".
Definition DELEGATION : string := "delegation".

Record PSKKey := mkPSKKey {
  psk_key : CryptoKey;
  psk_id : string
}.

(** [BackupKey] and [RecoveryKey] extend [PSKKey] without adding fields. *)
Abbreviation BackupKey := PSKKey.
Abbreviation RecoveryKey := PSKKey.

Record RecoveryMessage := mkRecoveryMessage {
  backupCredId : option string;
  delegationSignature : bytes;
  attestationObject : bytes
}.

(** Property reads on an element of a parsed JSON array: [None] is
    [undefined]. *)
Definition item_key (x : JsonItem) : option JsonWebKey :=
  match x with KeyItem e => Some (ek_key e) | DelegationItem _ => None end.

Definition item_backupId (x : JsonItem) : option string :=
  match x with KeyItem _ => None | DelegationItem d => Some (backupId d) end.

Definition item_signature (x : JsonItem) : option string :=
  match x with KeyItem _ => None | DelegationItem d => Some (signature d) end.

Definition item_replacementId (x : JsonItem) : option string :=
  match x with KeyItem _ => None | DelegationItem d => replacementId d end.

Definition item_replacementKey (x : JsonItem) : option JsonWebKey :=
  match x with KeyItem _ => None | DelegationItem d => Some (replacementKey d) end.

(** [a == b] where [b] is a string and [a] a string or [undefined]. *)
Definition loose_eq (a : option string) (b : string) : bool :=
  match a with
  | Some s => String.eqb s b
  | None => false
  end.

Record RecoveryOptions := mkRecoveryOptions {
  recoveryKey : option RecoveryKey;
  delegation : JsonItem
}.

(** The request of an assertion. *)
Record PublicKeyCredentialRequestOptions := mkRequestOptions {
  allowCredentials : option (list PublicKeyCredentialDescriptor);
  req_extensions : option (gmap string string);
  req_challenge : bytes;
  req_rpId : option string
}.

Record AuthenticatorAssertionResponse := mkAssertionResponse {
  authenticatorData : bytes;
  clientDataJSON : bytes;
  resp_signature : bytes;
  userHandle : bytes
}.

Record Credential := mkCredential {
  cred_id : string;
  rawId : bytes;
  response : AuthenticatorAssertionResponse;
  cred_type : string
}.

(** [ext.hasOwnProperty(k)] behind [ext !== undefined] *)
Definition hasExtension (ext : option (gmap string string)) (k : string) : bool :=
  match ext with
  | None => false
  | Some m => bool_decide (is_Some (m !! k))
  end.

(** [rpId || getDomainFromOrigin(origin)]: the empty string is falsy. *)
Definition rpId_or_domain `{Platform} (rpId : option string) (origin : string) : string :=
  match rpId with
  | Some (String a r) => String a r
  | Some EmptyString | None => getDomainFromOrigin origin
  end.

Section WebauthnPsk.
Context {C : Constants} {W : Platform}.

(** [parseJWK(jwk)]: the key is imported as an extractable key without
    usages, which only a public key can be; [importKey] rejects a missing
    key as one without members. *)
Definition parseJWK (jwk : option JsonWebKey) : M CryptoKey :=
  match jwk with
  | Some k => lift (importKey "jwk" (jwk_data k) (mkAlg "ECDSA" "P-256") true [])
  | None => throw (DOMException "DataError")
  end.

(** [subtle.exportKey("jwk", key)] *)
Definition exportKey_jwk (key : CryptoKey) : M JsonWebKey :=
  data <- lift (exportKey "jwk" key) ;;
  ret (mkJWK None data).

Definition storePSKKeys (identifier : string) (psk : list PSKKey) : M unit :=
  exportKeys <- forM (λ k, parsedKey <- exportKey_jwk (psk_key k) ;;
                           ret (mkExportKey parsedKey (psk_id k))) psk ;;
  chrome_storage_sync_set identifier (KeyItem <$> exportKeys).

(** The delegations are stored as they are: [JSON.stringify(del)]. *)
Definition storeDelegations (del : list Delegation) : M unit :=
  chrome_storage_sync_set DELEGATION (DelegationItem <$> del).

(** The whole of [fetchPSKKeys] runs in the callback of
    [chrome.storage.sync.get]: [JSON.parse] of a slot that is not there
    and an element whose key [importKey] rejects leave the promise
    pending. *)
Definition fetchPSKKeys (identifier : string) : M (list PSKKey) :=
  resp <- chrome_storage_sync_get identifier ;;
  in_callback
    match resp with
    | None => throw SyntaxError
    | Some exportedKey =>
        forM (λ x, parsedKey <- parseJWK (item_key x) ;;
                   ret (mkPSKKey parsedKey
                          match x with
                          | KeyItem e => ek_id e
                          | DelegationItem _ => EmptyString
                          end)) exportedKey
    end.

Definition fetchDelegations : M (list JsonItem) :=
  resp <- chrome_storage_sync_get DELEGATION ;;
  in_callback
    match resp with
    | None => throw SyntaxError
    | Some delegations => ret delegations
    end.

Definition popPSKKey (identifier : string) : M PSKKey :=
  pskKeys <- fetchPSKKeys identifier ;;
  match last pskKeys with
  | None =>
      (* pskKeys.length == 0 *)
      throw (Error ("No " ++ identifier ++ " key available to pop"))
  | Some key =>
      storePSKKeys identifier (removelast pskKeys) ;;;
      ret key
  end.

Definition popBackupKey : M BackupKey := popPSKKey BACKUP.

Definition getDelegation (credentialId : string) : M (option JsonItem) :=
  del <- fetchDelegations ;;
  let rec := List.filter (λ x, loose_eq (item_backupId x) credentialId) del in
  ret (if negb (Nat.eqb (length rec) 0) then del !! 0 else None).

Definition getRecoveryKey (credentialId : option string) : M (option RecoveryKey) :=
  rks <- fetchPSKKeys RECOVERY ;;
  let rk := List.filter (λ x, match credentialId with
                              | Some c => String.eqb (psk_id x) c
                              | None => false
                              end) rks in
  ret (if negb (Nat.eqb (length rk) 0) then rk !! 0 else None).

Definition getRecoveryOptions (backupCredentialId : string) : M RecoveryOptions :=
  del <- getDelegation backupCredentialId ;;
  match del with
  | None => throw TypeError
  | Some d =>
      rk <- getRecoveryKey (item_replacementId d) ;;
      ret (mkRecoveryOptions rk d)
  end.

(** [(new RecoveryMessage()).init(delegation, rkPub, origin)] *)
Definition RecoveryMessage_init (delegation : JsonItem) (rkPub : ICOSECompatibleKey)
    (origin : string) : Res RecoveryMessage :=
  match item_signature delegation, item_replacementId delegation with
  | Some sig, Some rid =>
      let recoveryCredId := base64ToByteArray rid false in
      let authData := generateAuthenticatorData rkPub origin 0 recoveryCredId None in
      Ok (mkRecoveryMessage (item_backupId delegation)
            (base64ToByteArray sig false)
            (CBOR_encodeCanonical_attestation authData))
  | _, _ => Throw TypeError
  end.

Definition pskSetupExtensionOutput (backupKey : BackupKey) : M bytes :=
  compatibleKey <- lift (getCompatibleKeyFromCryptoKey (psk_key backupKey)) ;;
  let coseKey := CBOR_encode_COSE compatibleKey (psk_key backupKey) in
  ret (CBOR_encode_map PSK coseKey).

(** This function is called when recovery is needed. *)
Definition recover (origin : string)
    (publicKeyRequestOptions : PublicKeyCredentialRequestOptions)
    (pin : string) : M (option Credential) :=
  match allowCredentials publicKeyRequestOptions with
  | None => ret None
  | Some creds =>
      (* Given origin does not work! *)
      let origin := "http://localhost:9005" in
      (* For now we will only worry about the first entry *)
      match creds !! 0 with
      | None => throw TypeError
      | Some requestedCredential =>
          let backupCredId := desc_id requestedCredential in
          let encBackupCredId := byteArrayToBase64 backupCredId true in
          recOps <- getRecoveryOptions encBackupCredId ;;
          match recoveryKey recOps with
          | None => throw TypeError
          | Some rk =>
              rkPrv <- lift (getCompatibleKeyFromCryptoKey (psk_key rk)) ;;
              rkPubRaw <- parseJWK (item_replacementKey (delegation recOps)) ;;
              rkPub <- lift (getCompatibleKeyFromCryptoKey rkPubRaw) ;;
              (* built and never awaited nor used *)
              let recMessage := RecoveryMessage_init (delegation recOps) rkPub origin in
              match privateKey rkPrv with
              | None => throw TypeError
              | Some prv => saveKey (psk_id rk) prv pin
              end ;;;
              let clientData :=
                generateClientData rkPrv (req_challenge publicKeyRequestOptions)
                  (mkExtra origin (Some "not-supported") "webauthn.get") in
              let clientDataJSON := base64ToByteArray (btoa clientData) false in
              let clientDataHash := SHA_256 clientDataJSON in
              let rpID := rpId_or_domain (req_rpId publicKeyRequestOptions) origin in
              let authenticatorData :=
                generateAuthenticatorData rkPrv rpID 0 [] None in
              let concatData := (authenticatorData ++ clientDataHash)%list in
              signature <- sign rkPrv concatData ;;
              ret (Some (mkCredential (psk_id rk)
                           (base64ToByteArray (psk_id rk) true)
                           (mkAssertionResponse authenticatorData clientDataJSON
                              signature [])
                           "public-key"))
          end
      end
  end.

End WebauthnPsk.

(** ** The older recovery module ([src/recovery.ts])

    Here a pool is read and written as the parsed JSON array itself. *)
Module RecoveryTs.

Definition storeBackupKeys (identifier : string) (backupKeys : list JsonItem)
  : M unit :=
  chrome_storage_sync_set identifier backupKeys.

Definition fetchBackupKeys (identifier : string) : M (list JsonItem) :=
  resp <- chrome_storage_sync_get identifier ;;
  in_callback
    match resp with
    | None => throw SyntaxError
    | Some bckpKeys => ret bckpKeys
    end.

(** [bckpKeys.pop()] is [undefined] ([None]) on an empty array. *)
Definition popBackupKey (identifier : string) : M (option JsonItem) :=
  bckpKeys <- fetchBackupKeys identifier ;;
  let key := last bckpKeys in
  storeBackupKeys identifier (removelast bckpKeys) ;;;
  ret key.

End RecoveryTs.

(** ** The WebAuthn engine ([src/webauthn.ts]) *)

Record PublicKeyCredentialCreationOptions := mkCreationOptions {
  attestation : option string;
  cre_extensions : option (gmap string string);
  rp_id : option string;
  pubKeyCredParams : list Z;
  cre_challenge : bytes
}.

Record AuthenticatorAttestationResponse := mkAttestationResponse {
  att_attestationObject : bytes;
  att_clientDataJSON : bytes
}.

Record PublicKeyCredential := mkPublicKeyCredential {
  pkc_id : string;
  pkc_rawId : bytes;
  pkc_response : AuthenticatorAttestationResponse;
  pkc_type : string
}.

Section Webauthn.
Context {C : Constants} {W : Platform}.

(** Modelled from the spec: [BackupKey.get] is not among the sources.
    Section 4.3, step 4, and section 4.4: it pops one backup key from the
    pool, which is what [popBackupKey] of the recovery module does. *)
Definition BackupKey_get : M BackupKey := popBackupKey.

(** The engine imports the builder of the extension output under the name
    [createPSKSetupExtensionOutput]. *)
Definition createPSKSetupExtensionOutput (bckpKey : BackupKey) : M bytes :=
  pskSetupExtensionOutput bckpKey.

(** Attestation *)
Definition processCredentialCreation (origin : string)
    (publicKeyCreationOptions : PublicKeyCredentialCreationOptions)
    (pin : string) : M (option PublicKeyCredential) :=
  if negb (bool_decide (attestation publicKeyCreationOptions = Some "none"))
  then ret None
  else
    let supportRecovery :=
      hasExtension (cre_extensions publicKeyCreationOptions) PSK in
    let rpID := rpId_or_domain (rp_id publicKeyCreationOptions) origin in
    bckpKey <- BackupKey_get ;;
    let credId := base64ToByteArray (psk_id bckpKey) true in
    let encCredId := byteArrayToBase64 credId true in
    exists_ <- keyExists encCredId ;;
    if (exists_ : bool)
    then throw (Error ("credential with id " ++ encCredId ++ " already exists"))
    else
      compatibleKey <- getCompatibleKey (pubKeyCredParams publicKeyCreationOptions) ;;
      extOutput <- (if supportRecovery
                    then out <- createPSKSetupExtensionOutput bckpKey ;; ret (Some out)
                    else ret None) ;;
      let authenticatorData :=
        generateAuthenticatorData compatibleKey rpID 0 credId extOutput in
      let clientData :=
        generateClientData compatibleKey (cre_challenge publicKeyCreationOptions)
          (mkExtra origin None "webauthn.create") in
      let attestationObject := CBOR_encodeCanonical_attestation authenticatorData in
      match privateKey compatibleKey with
      | None => throw TypeError
      | Some prv => saveKey encCredId prv pin
      end ;;;
      ret (Some (mkPublicKeyCredential encCredId credId
                   (mkAttestationResponse attestationObject
                      (base64ToByteArray (btoa clientData) false))
                   "public-key")).

(** The loop over [allowCredentials]: the candidate it stops at, with the
    values [credId], [encCredId] and [key] hold when it breaks. *)
Fixpoint scanCredentials (pin : string) (creds : list PublicKeyCredentialDescriptor)
  : M (option (bytes * string * CryptoKey)) :=
  match creds with
  | [] => ret None
  | requestedCredential :: rest =>
      let credId := desc_id requestedCredential in
      let encCredId := byteArrayToBase64 credId true in
      key <- catch (k <- fetchKey encCredId pin ;; ret (Some k)) (λ _, ret None) ;;
      match key with
      | Some k => ret (Some (credId, encCredId, k))
      | None => scanCredentials pin rest
      end
  end.

(** What the assertion flow does once a key is selected. *)
Definition signAssertion (origin : string)
    (publicKeyRequestOptions : PublicKeyCredentialRequestOptions)
    (credId : bytes) (encCredId : string) (key : CryptoKey) : M (option Credential) :=
  let rpID := rpId_or_domain (req_rpId publicKeyRequestOptions) origin in
  compatibleKey <- lift (getCompatibleKeyFromCryptoKey key) ;;
  let clientData :=
    generateClientData compatibleKey (req_challenge publicKeyRequestOptions)
      (mkExtra origin (Some "not-supported") "webauthn.get") in
  let clientDataJSON := base64ToByteArray (btoa clientData) false in
  let clientDataHash := SHA_256 clientDataJSON in
  let authenticatorData := generateAuthenticatorData compatibleKey rpID 0 [] None in
  (* Prepare input for signature *)
  let concatData := (authenticatorData ++ clientDataHash)%list in
  signature <- sign compatibleKey concatData ;;
  ret (Some (mkCredential encCredId credId
               (mkAssertionResponse authenticatorData clientDataJSON signature [])
               "public-key")).

(** Assertion *)
Definition processCredentialRequest (origin : string)
    (publicKeyRequestOptions : PublicKeyCredentialRequestOptions)
    (pin : string) : M (option Credential) :=
  match allowCredentials publicKeyRequestOptions with
  | None => ret None
  | Some creds =>
      if hasExtension (req_extensions publicKeyRequestOptions) PSK
      then recover origin publicKeyRequestOptions pin
      else
        found <- scanCredentials pin creds ;;
        match found with
        | None =>
            throw (Error ("credential with id " ++ JSON_stringify_credentials creds
                          ++ " not found"))
        | Some (credId, encCredId, key) =>
            signAssertion origin publicKeyRequestOptions credId encCredId key
        end
  end.

End Webauthn.

(** ** The failures of the specification, as the code raises them *)

Definition PoolExhausted (identifier : string) : Exn :=
  Error ("No " ++ identifier ++ " key available to pop").

Definition DuplicateCredential (encCredId : string) : Exn :=
  Error ("credential with id " ++ encCredId ++ " already exists").

Definition CredentialNotFound `{Platform} (creds : list PublicKeyCredentialDescriptor)
  : Exn :=
  Error ("credential with id " ++ JSON_stringify_credentials creds ++ " not found").

(** [unwrapKey] rejects with an [OperationError] when the authenticated
    decryption fails. *)
Definition IntegrityFailure : Exn := DOMException "OperationError".

(** ** Laws of the platform

    What the proofs below ask of the helpers and primitives, each as a
    property of its own. *)

Definition base64_round_trip (W : Platform) : Prop :=
  ∀ (b : bytes) (url : bool), base64ToByteArray (byteArrayToBase64 b url) url = b.

Definition json_round_trip (W : Platform) : Prop :=
  ∀ a : KeyAlgorithm, JSON_parse (JSON_stringify a) = Some a.

(** Authenticated decryption under the encryption key gives the plaintext
    back. *)
Definition aead_correct (W : Platform) : Prop :=
  ∀ k iv m : bytes, AES_GCM_decrypt k iv (AES_GCM_encrypt k iv m) = Some m.

(** PBKDF2 runs HMAC with the password as its key, and HMAC pads a key
    that is shorter than the block of its hash (64 bytes for SHA-256) with
    zero bytes: a password and the same password followed by a zero byte
    derive the same key. *)
Definition hmac_pads_key (W : Platform) : Prop :=
  ∀ p salt : bytes, length p < 64 → PBKDF2 (p ++ [Byte.x00])%list salt = PBKDF2 p salt.

(** ** A reference platform

    A small executable instance, used to run the flows on concrete inputs.
    Base64 and [btoa] keep the bytes as they are; a wrapping key is the
    framed PIN, padded as HMAC pads its key, followed by the salt; a
    ciphertext is the framed key followed by the plaintext, and decryption
    checks the frame.  The members of a JSON Web Key that start with the
    letter [d] stand for those of a private key, and the empty data for
    no key. *)

(** Every byte is preceded by [x01], and [x00] ends the frame. *)
Fixpoint frame (l : bytes) : bytes :=
  match l with
  | [] => [Byte.x00]
  | b :: l' => Byte.x01 :: b :: frame l'
  end.

Fixpoint unframe (c : bytes) : option (bytes * bytes) :=
  match c with
  | [] => None
  | t :: rest =>
      if Byte.eqb t Byte.x00 then Some ([], rest)
      else match rest with
           | [] => None
           | b :: rest' =>
               match unframe rest' with
               | Some (k, m) => Some (b :: k, m)
               | None => None
               end
           end
  end.

Definition bytes_eqb (a b : bytes) : bool :=
  bool_decide (Byte.to_N <$> a = Byte.to_N <$> b).

Definition ref_encrypt (k iv m : bytes) : bytes := (frame k ++ m)%list.

Definition ref_decrypt (k iv c : bytes) : option bytes :=
  match unframe c with
  | Some (k', m) => if bytes_eqb k' k then Some m else None
  | None => None
  end.

Definition ref_stringify (a : KeyAlgorithm) : string :=
  TextDecoder_decode
    (frame (TextEncoder_encode (alg_name a)) ++ TextEncoder_encode (namedCurve a))%list.

Definition ref_parse (s : string) : option KeyAlgorithm :=
  match unframe (TextEncoder_encode s) with
  | Some (n, c) => Some (mkAlg (TextDecoder_decode n) (TextDecoder_decode c))
  | None => None
  end.

(** The key of HMAC for a password of up to 64 bytes. *)
Definition ref_hmac_key (pin : bytes) : bytes :=
  (pin ++ replicate (64 - length pin) Byte.x00)%list.

Definition ref_jwk_kind (alg : KeyAlgorithm) (data : bytes) : JwkKind :=
  match data with
  | [] => ForeignJwk
  | b :: _ => if Byte.eqb b Byte.x64 then PrivateJwk else PublicJwk
  end.

Definition ES256 : KeyAlgorithm := mkAlg "ECDSA" "P-256".

Definition reference_platform : Platform := {|
  byteArrayToBase64 b _ := TextDecoder_decode b;
  base64ToByteArray s _ := TextEncoder_encode s;
  getDomainFromOrigin o := o;
  btoa s := s;
  JSON_stringify := ref_stringify;
  JSON_parse := ref_parse;
  PBKDF2 pin salt := (frame (ref_hmac_key pin) ++ salt)%list;
  AES_GCM_encrypt := ref_encrypt;
  AES_GCM_decrypt := ref_decrypt;
  SHA_256 b := b;
  jwk_kind := ref_jwk_kind;
  generateKey alg seed :=
    (mkKey ES256 true [UsageSign] seed, mkKey ES256 true [UsageVerify] seed);
  supportedAlgorithm alg := Z.eqb alg (-7);
  getCompatibleKeyFromCryptoKey k := Ok (mkCompatibleKey (-7) (Some k) (Some k));
  generateClientData _ challenge extra :=
    extra_type extra ++ "|" ++ extra_origin extra ++ "|" ++ TextDecoder_decode challenge;
  generateAuthenticatorData _ rpID _ credId ext :=
    (TextEncoder_encode rpID ++ credId ++ default [] ext)%list;
  sign_with k nonce data :=
    match privateKey k with
    | Some prv => Ok (material prv ++ data)%list
    | None => Throw (DOMException "InvalidAccessError")
    end;
  CBOR_encodeCanonical_attestation authData := authData;
  CBOR_encode_COSE _ key := material key;
  CBOR_encode_map k v := (TextEncoder_encode k ++ v)%list;
  JSON_stringify_credentials creds :=
    TextDecoder_decode (concat (desc_id <$> creds))
|}.

Definition reference_constants : Constants := {|
  BD_ENDPOINT := "bd_endpoint";
  BACKUP_KEY := "backup_key";
  DEFAULT_BD_ENDPOINT := "https://bd.example";
  PIN := "1234";
  saltLength := 16;
  ivLength := 12;
  keyExportFormat := "jwk"
|}.

(** A store in which nothing was ever written; the entropy source hands
    out the byte 42 for ever. *)
Definition empty_state : State :=
  mkState ∅ ∅ ∅ (λ _, Byte.x2a) 0.

(** ** Statements and sample inputs *)

Local Open Scope list_scope.

(** The outcome of a wrap followed by an unwrap: the payload that [export]
    persists starts with three bytes that are the lengths of the salt, the
    IV and the algorithm descriptor that follow them, and [import] gives
    back a credential with the same key material and the same algorithm,
    usable for signing. *)
Definition round_trips `{C : Constants} `{W : Platform}
    (self : PublicKeyCredentialSource) (st : State) : Prop :=
  ∃ (json : CredentialJson) (st' : State) (h0 h1 h2 : byte) (salt iv wrapped : bytes),
    export self st = (Ok json, st') ∧
    base64ToByteArray (json_privateKey json) false
    = (h0 :: h1 :: h2 :: salt ++ iv
       ++ TextEncoder_encode (JSON_stringify (algorithm (src_privateKey self)))
       ++ wrapped)%list ∧
    Byte.to_nat h0 = length salt ∧
    Byte.to_nat h1 = length iv ∧
    Byte.to_nat h2
    = length (TextEncoder_encode (JSON_stringify (algorithm (src_privateKey self)))) ∧
    import json
    = Ok (mkCredSrc (src_id self)
            (mkKey (algorithm (src_privateKey self)) true [UsageSign]
               (material (src_privateKey self)))
            (src_rpId self) (src_userHandle self) "public-key").

(** A credential to run the codec on. *)
Definition sample_key : CryptoKey :=
  mkKey ES256 true [UsageSign] [Byte.x01; Byte.x02; Byte.x03].

Definition sample_credential : PublicKeyCredentialSource :=
  mkCredSrc "Y3JlZA" sample_key "example.com" None "public-key".

(** A loop whose steps leave the state alone, as a function on lists. *)
Fixpoint traverse {A B} (g : A → Res B) (xs : list A) : Res (list B) :=
  match xs with
  | [] => Ok []
  | x :: xs' =>
      match g x with
      | Throw e => Throw e
      | Pending => Pending
      | Ok y => match traverse g xs' with
                | Throw e => Throw e
                | Pending => Pending
                | Ok ys => Ok (y :: ys)
                end
      end
  end.

(** The outcome of a body that runs inside a callback. *)
Definition settled {A} (r : Res A) : Res A :=
  match r with
  | Ok a => Ok a
  | Throw _ | Pending => Pending
  end.

(** An element of a pool that [fetchPSKKeys] can read: its JSON Web Key
    is the public key of an ECDSA key on P-256. *)
Definition importable `{W : Platform} (e : ExportKey) : Prop :=
  jwk_kind ES256 (jwk_data (ek_key e)) = PublicJwk.

(** What [fetchPSKKeys] makes of such an element, and what [storePSKKeys]
    writes back for it: the same id and key data, the [kid] of the JWK
    dropped by the export. *)
Definition parse_key (e : ExportKey) : PSKKey :=
  mkPSKKey (mkKey ES256 true [] (jwk_data (ek_key e))) (ek_id e).

(** What it makes of any element of the stored array. *)
Definition parse_item `{W : Platform} (x : JsonItem) : Res PSKKey :=
  match x with
  | KeyItem e =>
      match importKey "jwk" (jwk_data (ek_key e)) ES256 true [] with
      | Ok k => Ok (mkPSKKey k (ek_id e))
      | Throw err => Throw err
      | Pending => Pending
      end
  | DelegationItem _ => Throw (DOMException "DataError")
  end.

Definition reexport (e : ExportKey) : ExportKey :=
  mkExportKey (mkJWK None (jwk_data (ek_key e))) (ek_id e).

Definition with_sync (st : State) (s : gmap string (list JsonItem)) : State :=
  mkState (local st) s (keys st) (entropy st) (cursor st).

(** [n] pops in a row, with the keys they returned. *)
Fixpoint popN `{W : Platform} (identifier : string) (n : nat) : M (list PSKKey) :=
  match n with
  | 0 => ret []
  | S n' =>
      k <- popPSKKey identifier ;;
      ks <- popN identifier n' ;;
      ret (k :: ks)
  end.

(** Pools and delegations to run the flows on. *)
Definition sample_jwk (b : byte) (k : option string) : JsonWebKey := mkJWK k [b].

Definition backup_pool : list ExportKey :=
  [ mkExportKey (sample_jwk Byte.x0a (Some "YjE")) "YjE";
    mkExportKey (sample_jwk Byte.x0b (Some "YjI")) "YjI" ].

Definition recovery_pool : list ExportKey :=
  [ mkExportKey (sample_jwk Byte.x0c None) "cjE";
    mkExportKey (sample_jwk Byte.x0d None) "cjI" ].

(** The recovery pool as [createRecoveryKeys] writes it: the exported
    private halves of the key pairs. *)
Definition private_recovery_pool : list ExportKey :=
  [ mkExportKey (mkJWK None [Byte.x64; Byte.x0c]) "cjE";
    mkExportKey (mkJWK None [Byte.x64; Byte.x0d]) "cjI" ].

(** A store whose pools are filled, as after [syncBackupKeys] and
    [createRecoveryKeys], and a store whose backup pool ran empty. *)
Definition pools_state : State :=
  with_sync empty_state
    (<[BACKUP := KeyItem <$> backup_pool]>
       (<[RECOVERY := KeyItem <$> recovery_pool]> ∅)).

Definition exhausted_state : State :=
  with_sync empty_state (<[BACKUP := []]> ∅).

(** The element [getDelegation] answers with, from the stored array. *)
Definition found_delegation (credentialId : string) (del : list JsonItem)
  : option JsonItem :=
  if negb (Nat.eqb (length (List.filter
                              (λ x, loose_eq (item_backupId x) credentialId) del)) 0)
  then del !! 0
  else None.



(** Two delegations: the backup credential [YjE] is replaced by the
    recovery key [cjE], and [YjI] by [cjI].  Their signatures are no
    signatures at all. *)
Definition delegation_1 : Delegation :=
  mkDelegation "not-a-signature" "YjE" (Some "cjE") (sample_jwk Byte.x0c (Some "cjE")).

Definition delegation_2 : Delegation :=
  mkDelegation "not-a-signature" "YjI" (Some "cjI") (sample_jwk Byte.x0d (Some "cjI")).

Definition recovery_state : State :=
  with_sync empty_state
    (<[DELEGATION := [DelegationItem delegation_1; DelegationItem delegation_2]]>
       (sync pools_state)).

(** An assertion request for the credential [id], with or without the
    recovery extension. *)
Definition sample_request (ids : list string) (psk : bool)
  : PublicKeyCredentialRequestOptions :=
  mkRequestOptions (Some ((λ i, mkDescriptor (TextEncoder_encode i)) <$> ids))
    (if psk then Some {[ PSK := EmptyString ]} else None)
    [Byte.x63] None.

(** The key [getRecoveryKey] answers with, and what [getRecoveryOptions]
    computes from the two stored arrays. *)
Definition found_key (credentialId : option string) (rks : list PSKKey)
  : option PSKKey :=
  let rk := List.filter (λ x, match credentialId with
                              | Some c => String.eqb (psk_id x) c
                              | None => false
                              end) rks in
  if negb (Nat.eqb (length rk) 0) then rk !! 0 else None.

Definition recovery_options `{W : Platform} (credentialId : string)
    (dels recs : option (list JsonItem)) : Res RecoveryOptions :=
  match dels with
  | None => Pending
  | Some del =>
      match found_delegation credentialId del with
      | None => Throw TypeError
      | Some d =>
          match recs with
          | None => Pending
          | Some items =>
              match traverse parse_item items with
              | Throw _ | Pending => Pending
              | Ok rks =>
                  Ok (mkRecoveryOptions (found_key (item_replacementId d) rks) d)
              end
          end
      end
  end.

(** A computation that neither reads nor writes [chrome.storage.sync]. *)
Definition sync_blind {A} (m : M A) : Prop :=
  ∀ (g : gmap string (list JsonItem) → gmap string (list JsonItem)) (st : State),
    m (with_sync st (g (sync st)))
    = (fst (m st), with_sync (snd (m st)) (g (sync (snd (m st))))).


(** The store of an authenticator that is set up for recovery: the two
    delegations, and the recovery pool as [createRecoveryKeys] writes
    it. *)
Definition private_pool_state : State :=
  with_sync recovery_state
    (<[RECOVERY := KeyItem <$> private_recovery_pool]> (sync recovery_state)).

(** Section 4.3, step 4, read as a property of the flow: a creation
    request without the recovery extension leaves the backup pool alone. *)
Definition pops_only_for_recovery `{C : Constants} `{W : Platform} : Prop :=
  ∀ (origin pin : string) (opts : PublicKeyCredentialCreationOptions) (st : State),
    hasExtension (cre_extensions opts) PSK = false →
    sync (snd (processCredentialCreation origin opts pin st)) !! BACKUP
    = sync st !! BACKUP.

(** A creation request for ES256 with attestation [none], with or without
    the recovery extension. *)
Definition sample_creation (psk : bool) : PublicKeyCredentialCreationOptions :=
  mkCreationOptions (Some "none")
    (if psk then Some {[ PSK := EmptyString ]} else None)
    None [(-7)%Z] [Byte.x63].

(** The store after one credential was created from [pools_state] under
    the PIN [1234]. *)
Definition registered_state : State :=
  snd (processCredentialCreation (C := reference_constants)
         (W := reference_platform) "https://example.com" (sample_creation false)
         "1234" pools_state).

(** The same store after the backup bundle was synchronised again: the
    pool holds the key [YjI] once more, whose id is bound in the key
    store. *)
Definition resynced_state : State :=
  with_sync registered_state (sync pools_state).

(** What the creation flow does with the backup pool [es ++ [e]]: the pool
    is left with [es], and a credential that the flow returns has the id of
    the backup key [e] and carries authenticator data built for a fresh
    key pair; the data holds an extension output exactly when the request
    has the recovery extension.  What the flow persists under the id is
    the private key of that fresh pair, wrapped under the PIN with the
    salt and the IV drawn after the key pair, and no other binding of the
    key store changes. *)
Definition takes_backup_key `{C : Constants} `{W : Platform}
    (origin pin : string) (opts : PublicKeyCredentialCreationOptions)
    (es : list ExportKey) (e : ExportKey) (st : State) : Prop :=
  sync (snd (processCredentialCreation origin opts pin st)) !! BACKUP
  = Some (KeyItem <$> (reexport <$> es)) ∧
  ∀ (cred : PublicKeyCredential) (st' : State),
    processCredentialCreation origin opts pin st = (Ok (Some cred), st') →
    pkc_id cred = byteArrayToBase64 (base64ToByteArray (ek_id e) true) true ∧
    pkc_rawId cred = base64ToByteArray (ek_id e) true ∧
    ∃ (compatibleKey : ICOSECompatibleKey) (prv : CryptoKey)
      (extOutput : option bytes),
      fst (getCompatibleKey (pubKeyCredParams opts)
             (with_sync st (<[BACKUP := KeyItem <$> (reexport <$> es)]> (sync st))))
      = Ok compatibleKey ∧
      privateKey compatibleKey = Some prv ∧
      (let salt := map (entropy st) (seq (cursor st + 32) saltLength) in
       let iv := map (entropy st) (seq (cursor st + 32 + saltLength) ivLength) in
       keys st' !! pkc_id cred
       = Some (byteArrayToBase64
                 (payload_of salt iv
                    (TextEncoder_encode (JSON_stringify (algorithm prv)))
                    (AES_GCM_encrypt (getWrappingKey pin salt) iv (material prv)))
                 false)) ∧
      (∀ k, k ≠ pkc_id cred → keys st' !! k = keys st !! k) ∧
      att_attestationObject (pkc_response cred)
      = CBOR_encodeCanonical_attestation
          (generateAuthenticatorData compatibleKey
             (rpId_or_domain (rp_id opts) origin) 0
             (base64ToByteArray (ek_id e) true) extOutput) ∧
      (hasExtension (cre_extensions opts) PSK = false → extOutput = None) ∧
      (hasExtension (cre_extensions opts) PSK = true → is_Some extOutput).

(** Case analysis along a run [H : m st = (r, st')]. *)
Ltac run_cases H :=
  repeat first
    [ discriminate H
    | progress unfold bind, lift, ret, throw in H
    | match type of H with
      | context [match ?x with _ => _ end] => destruct x eqn:?
      end ].

(** * The rest of the stores

    The functions of the modules above that the flows do not go through:
    the credentials map and the backup-key slot of the storage module, and
    the synchronisation of the bundled assets. *)

(** ** The JSON texts of the storage module

    [chrome.storage.local] holds strings: the arrays that the storage
    module keeps there go through [JSON.stringify] and [JSON.parse].  A
    [CryptoKey] has no enumerable property and is written as the empty
    object, so the text of an array of backup keys is determined by the
    ids. *)
Class JsonText := {
  JSON_stringify_array : list CredentialJson → string;
  JSON_parse_array : string → option (list CredentialJson);
  JSON_stringify_backupKeys : list string → string;
  JSON_parse_backupKeys : string → option (list string)
}.

Definition array_json_round_trip (J : JsonText) : Prop :=
  ∀ l : list CredentialJson, JSON_parse_array (JSON_stringify_array l) = Some l.

Definition backupKeys_json_round_trip (J : JsonText) : Prop :=
  ∀ ids : list string, JSON_parse_backupKeys (JSON_stringify_backupKeys ids) = Some ids.

(** [x == null] for a value read out of a response object. *)
Definition is_nullish {A} (x : option (option A)) : bool :=
  match x with
  | None | Some None => true
  | Some (Some _) => false
  end.

(** ** The credentials map of the storage module *)
Module CredentialsMap.
Section CredentialsMap.
Context {C : Constants} {W : Platform} {J : JsonText}.

(** [CredentialsMap.exists(rpId)] *)
Definition exists_ (rpId : string) : M bool :=
  resp <- chrome_storage_local_get rpId None ;;
  ret (negb (is_nullish (resp !! rpId))).

(** [JSON.parse(text)] *)
Definition JSON_parse_credentials (text : string) : M (list CredentialJson) :=
  match JSON_parse_array text with
  | Some exportJSON => ret exportJSON
  | None => throw SyntaxError
  end.

(** [CredentialsMap.load(rpId)]: all of it runs inside the callback of
    [chrome.storage.local.get]. *)
Definition load (rpId : string) : M (list PublicKeyCredentialSource) :=
  resp <- chrome_storage_local_get rpId None ;;
  match resp !! rpId with
  | None | Some None => ret []
  | Some (Some text) =>
      in_callback (exportJSON <- JSON_parse_credentials text ;;
                   forM (λ json, lift (import json)) exportJSON)
  end.

(** [CredentialsMap.lookup(rpId, credSrcId)] *)
Definition lookup (rpId credSrcId : string) : M (option PublicKeyCredentialSource) :=
  credSrcs <- load rpId ;;
  let res := List.filter (λ x, String.eqb (src_id x) credSrcId) credSrcs in
  ret (if Nat.eqb (length res) 0 then None else res !! 0).

(** [CredentialsMap.put(rpId, credSrc)] *)
Definition put (rpId : string) (credSrc : PublicKeyCredentialSource) : M unit :=
  mapEntryExists <- exists_ rpId ;;
  credSrcs <- (if (mapEntryExists : bool)
               then entries <- load rpId ;; ret (entries ++ [credSrc])%list
               else ret [credSrc]) ;;
  jsonArr <- forM export credSrcs ;;
  let exportJSON := JSON_stringify_array jsonArr in
  chrome_storage_local_set rpId exportJSON.

End CredentialsMap.
End CredentialsMap.

(** ** The backup-key slot of the storage module *)
Module PSKStorage.
Section PSKStorage.
Context {C : Constants} {J : JsonText}.

Definition existBackupKeys : M bool :=
  resp <- chrome_storage_local_get BACKUP_KEY None ;;
  ret (negb (is_nullish (resp !! BACKUP_KEY))).

(** [PSKStorage.loadBackupKeys()]: the parsed array, of which the ids are
    kept (the [key] of every element is the empty object). *)
Definition loadBackupKeys : M (list string) :=
  resp <- chrome_storage_local_get BACKUP_KEY None ;;
  match resp !! BACKUP_KEY with
  | None | Some None => ret []
  | Some (Some text) =>
      in_callback (match JSON_parse_backupKeys text with
                   | Some backupKeys => ret backupKeys
                   | None => throw SyntaxError
                   end)
  end.

(** [PSKStorage.storeBackupKeys(backupKeys, override)] *)
Definition storeBackupKeys (backupKeys : list BackupKey) (override : bool) : M unit :=
  backupKeysExists <- existBackupKeys ;;
  backupKeys <- (if (backupKeysExists : bool) && negb override
                 then entries <- loadBackupKeys ;;
                      ret (entries ++ (psk_id <$> backupKeys))%list
                 else ret (psk_id <$> backupKeys)) ;;
  let exportJSON := JSON_stringify_backupKeys backupKeys in
  chrome_storage_local_set BACKUP_KEY exportJSON.

End PSKStorage.
End PSKStorage.

(** ** The bundled assets

    [/recovery/backup.json] and [/recovery/delegation.json] are fetched
    with an [XMLHttpRequest].  What the request comes back with is an
    argument of the loaders: a status with the parsed body ([None] when
    the body is no JSON text), or nothing at all. *)
Inductive XHR (A : Type) :=
  | Response (status : nat) (body : option A)
  | NoResponse.
Arguments Response {A} status body.
Arguments NoResponse {A}.

(** An element of the delegation bundle. *)
Record RawDelegation := mkRawDelegation {
  raw_public_key : JsonWebKey;
  raw_signature : string;
  raw_cred_id : string
}.

(** An element of the backup bundle: a JWK that carries its [kid]. *)
Record BundledKey := mkBundledKey {
  bundled_kid : string;
  bundled_data : bytes
}.

(** [new Delegation(sign, backupId, jwk)] *)
Definition new_Delegation (sign backupId : string) (jwk : JsonWebKey) : Delegation :=
  mkDelegation sign backupId (kid jwk) jwk.

(** [JSON.parse(this.response)] *)
Definition JSON_parse_response {A} (body : option A) : M A :=
  match body with
  | Some parsed => ret parsed
  | None => throw SyntaxError
  end.

Section Assets.
Context {W : Platform}.

(** The handler [onload] is an [async] function: an exception in it
    leaves the promise pending; another status than 200 rejects the
    promise with the status. *)
Definition loadDelegations (xhr : XHR (list RawDelegation)) : M (list Delegation) :=
  match xhr with
  | NoResponse => never
  | Response status body =>
      if Nat.eqb status 200
      then in_callback
             (rawDelegations <- JSON_parse_response body ;;
              ret ((λ r, new_Delegation (raw_signature r) (raw_cred_id r)
                           (raw_public_key r)) <$> rawDelegations))
      else throw (Number status)
  end.

Definition loadBackupKeys (xhr : XHR (list BundledKey)) : M (list BackupKey) :=
  match xhr with
  | NoResponse => never
  | Response status body =>
      if Nat.eqb status 200
      then in_callback
             (jwk <- JSON_parse_response body ;;
              forM (λ k, parsedKey <- parseJWK (Some (mkJWK (Some (bundled_kid k))
                                                        (bundled_data k))) ;;
                         ret (mkPSKKey parsedKey (bundled_kid k))) jwk)
      else throw (Number status)
  end.

Definition syncBackupKeys (xhr : XHR (list BundledKey)) : M unit :=
  bckpKeys <- loadBackupKeys xhr ;;
  storePSKKeys BACKUP bckpKeys.

Definition syncDelegation (xhr : XHR (list RawDelegation)) : M unit :=
  delegations <- loadDelegations xhr ;;
  storeDelegations delegations.

End Assets.

(** ** The assets in the older recovery module

    There the keys of the bundle are stored as they are read, each under
    its [kid]; the handler of the request is no [async] function, and an
    exception in it leaves the promise pending all the same. *)
Module RecoveryTsAssets.

Definition loadBackupKeys (xhr : XHR (list BundledKey)) : M (list JsonItem) :=
  match xhr with
  | NoResponse => never
  | Response status body =>
      if Nat.eqb status 200
      then in_callback
             (jwk <- JSON_parse_response body ;;
              ret ((λ k, KeyItem (mkExportKey
                                    (mkJWK (Some (bundled_kid k)) (bundled_data k))
                                    (bundled_kid k))) <$> jwk))
      else throw (Number status)
  end.

Definition syncBackupKeys (xhr : XHR (list BundledKey)) : M unit :=
  bckpKeys <- loadBackupKeys xhr ;;
  RecoveryTs.storeBackupKeys "backup" bckpKeys.

End RecoveryTsAssets.


(** ** A reference instance of the JSON texts

    A text is a sequence of frames: one frame per element of the array,
    which for a credential holds the frames of its fields. *)
Definition frames (l : list bytes) : bytes := concat (frame <$> l).

Fixpoint unframes (fuel : nat) (c : bytes) : option (list bytes) :=
  match fuel with
  | 0 => None
  | S fuel' =>
      match c with
      | [] => Some []
      | _ :: _ =>
          match unframe c with
          | Some (x, rest) =>
              match unframes fuel' rest with
              | Some xs => Some (x :: xs)
              | None => None
              end
          | None => None
          end
      end
  end.

Definition fields_of (json : CredentialJson) : list bytes :=
  [ TextEncoder_encode (json_id json);
    TextEncoder_encode (json_privateKey json);
    TextEncoder_encode (json_rpId json);
    match json_userHandle json with
    | None => []
    | Some b => Byte.x01 :: b
    end;
    TextEncoder_encode (json_type json) ].

Definition of_fields (fs : list bytes) : option CredentialJson :=
  match fs with
  | [i; k; r; u; t] =>
      Some (mkCredentialJson (TextDecoder_decode i) (TextDecoder_decode k)
              (TextDecoder_decode r)
              match u with [] => None | _ :: b => Some b end
              (TextDecoder_decode t))
  | _ => None
  end.

Fixpoint collect {A} (l : list (option A)) : option (list A) :=
  match l with
  | [] => Some []
  | None :: _ => None
  | Some x :: l' =>
      match collect l' with
      | Some xs => Some (x :: xs)
      | None => None
      end
  end.

Definition ref_stringify_array (l : list CredentialJson) : string :=
  TextDecoder_decode (frames ((λ json, frames (fields_of json)) <$> l)).

Definition ref_parse_array (s : string) : option (list CredentialJson) :=
  match unframes (S (length (TextEncoder_encode s))) (TextEncoder_encode s) with
  | None => None
  | Some records =>
      collect ((λ r, match unframes (S (length r)) r with
                     | Some fs => of_fields fs
                     | None => None
                     end) <$> records)
  end.

Definition reference_json_text : JsonText := {|
  JSON_stringify_array := ref_stringify_array;
  JSON_parse_array := ref_parse_array;
  JSON_stringify_backupKeys ids :=
    TextDecoder_decode (frames (TextEncoder_encode <$> ids));
  JSON_parse_backupKeys s :=
    match unframes (S (length (TextEncoder_encode s))) (TextEncoder_encode s) with
    | Some l => Some (TextDecoder_decode <$> l)
    | None => None
    end
|}.

(** ** Statements about the rest of the stores *)

(** What [import] makes of an exported credential: the same ids, key
    material and algorithm; the key is extractable, its only usage is
    [sign], and the type is [public-key]. *)
Definition normal (c : PublicKeyCredentialSource) : PublicKeyCredentialSource :=
  mkCredSrc (src_id c)
    (mkKey (algorithm (src_privateKey c)) true [UsageSign] (material (src_privateKey c)))
    (src_rpId c) (src_userHandle c) "public-key".

(** A credential that [export] can write: its key is extractable and its
    algorithm descriptor fits the one-byte length of the header. *)
Definition exportable `{W : Platform} (c : PublicKeyCredentialSource) : Prop :=
  extractable (src_privateKey c) = true ∧
  length (TextEncoder_encode (JSON_stringify (algorithm (src_privateKey c)))) < 256.

(** [JSON.parse] rejects the empty text. *)
Definition json_rejects_empty (W : Platform) : Prop :=
  JSON_parse EmptyString = None.

(** The state after [n] bytes were drawn from the entropy source. *)
Definition drawn (st : State) (n : nat) : State :=
  mkState (local st) (sync st) (keys st) (entropy st) (cursor st + n).

Definition with_local (st : State) (l : gmap string string) : State :=
  mkState l (sync st) (keys st) (entropy st) (cursor st).

(** The entry [lookup] answers with, from the loaded array: the first one
    that carries the id. *)
Definition first_with_id (credSrcId : string) (l : list PublicKeyCredentialSource)
  : option PublicKeyCredentialSource :=
  List.find (λ x, String.eqb (src_id x) credSrcId) l.

(** A second credential, with the id of [sample_credential]. *)
Definition sample_credential_2 : PublicKeyCredentialSource :=
  mkCredSrc "Y3JlZA"
    (mkKey ES256 true [UsageSign] [Byte.x04; Byte.x05])
    "example.com" None "public-key".

(** The store after [sample_credential] was put under its relying party. *)
Definition stored_state : State :=
  snd (CredentialsMap.put (C := reference_constants) (W := reference_platform)
         (J := reference_json_text) "example.com" sample_credential empty_state).

(** The element of a pool that an element of the backup bundle stands
    for, and the delegation that an element of the delegation bundle
    becomes. *)
Definition bundle_entry (k : BundledKey) : ExportKey :=
  mkExportKey (mkJWK (Some (bundled_kid k)) (bundled_data k)) (bundled_kid k).

Definition delegation_of (r : RawDelegation) : Delegation :=
  mkDelegation (raw_signature r) (raw_cred_id r) (kid (raw_public_key r))
    (raw_public_key r).

(** Whether a bundle of delegations holds one for the backup credential
    [credentialId]. *)
Definition delegates (credentialId : string) (raws : list RawDelegation) : bool :=
  existsb (λ r, String.eqb (raw_cred_id r) credentialId) raws.

(** An element of the backup bundle that [parseJWK] accepts. *)
Definition bundled_public `{W : Platform} (k : BundledKey) : Prop :=
  jwk_kind ES256 (bundled_data k) = PublicJwk.

(** Backup keys as [PSKStorage.storeBackupKeys] is handed them. *)
Definition sample_backup_keys : list BackupKey := parse_key <$> backup_pool.

(** A key that [fetchPSKKeys] reads back once it was stored: its material
    is that of a public ECDSA key on P-256. *)
Definition public_material `{W : Platform} (k : PSKKey) : Prop :=
  jwk_kind ES256 (material (psk_key k)) = PublicJwk.

(** Such a key as [fetchPSKKeys] gives it back: the id and the key
    material as they were, the key extractable, for ECDSA on P-256, and
    with no usage. *)
Definition as_fetched (k : PSKKey) : PSKKey :=
  mkPSKKey (mkKey ES256 true [] (material (psk_key k))) (psk_id k).

(** The element of the stored array that [storePSKKeys] writes for a
    key. *)
Definition stored_entry (k : PSKKey) : ExportKey :=
  mkExportKey (mkJWK None (material (psk_key k))) (psk_id k).

(** A key that cannot be exported. *)
Definition sealed (k : PSKKey) : Prop := extractable (psk_key k) = false.

(** The salt and the IV that an export draws in the state [st], and what
    it means that the payload it writes for [c] under the PIN [P1] does
    not authenticate under the key that the PIN [P2] derives. *)
Definition salt_at `{C : Constants} (st : State) : bytes :=
  map (entropy st) (seq (cursor st) saltLength).

Definition iv_at `{C : Constants} (st : State) : bytes :=
  map (entropy st) (seq (cursor st + saltLength) ivLength).

Definition wrapped_at `{C : Constants} `{W : Platform} (P1 : string)
    (c : PublicKeyCredentialSource) (st : State) : bytes :=
  AES_GCM_encrypt (getWrappingKey P1 (salt_at st)) (iv_at st)
    (material (src_privateKey c)).

Definition rejected_under `{C : Constants} `{W : Platform} (P1 P2 : string)
    (c : PublicKeyCredentialSource) (st : State) : Prop :=
  AES_GCM_decrypt (getWrappingKey P2 (salt_at st)) (iv_at st) (wrapped_at P1 c st)
  = None.

(** The PIN of the reference constants followed by a NUL character. *)
Definition PIN_NUL : string := String.append "1234" (String Ascii.zero EmptyString).

(** Section 4.1, negative round trip: whatever the two PINs, as long as
    they differ, the payload written under the first does not import under
    the second. *)
Definition rejects_every_other_PIN `{C : Constants} `{W : Platform} : Prop :=
  ∀ (P1 P2 : string) (self : PublicKeyCredentialSource) (st : State),
    P1 ≠ P2 →
    extractable (src_privateKey self) = true →
    ∃ (json : CredentialJson) (st' : State),
      export (C := with_PIN C P1) self st = (Ok json, st') ∧
      import (C := with_PIN C P2) json = Throw IntegrityFailure.

(** What [import] under the PIN [P2] makes of the payload that [export]
    wrote for [self] under the PIN [P1] in the state [st]: the key with
    the bytes that the unwrapping gives, or the one failure of an
    unwrapping that does not authenticate; and the key of [self] itself
    when the two PINs derive one wrapping key. *)
Definition unwraps_or_fails `{C : Constants} `{W : Platform} (P1 P2 : string)
    (self : PublicKeyCredentialSource) (st : State) : Prop :=
  ∃ (json : CredentialJson) (st' : State),
    export (C := with_PIN C P1) self st = (Ok json, st') ∧
    import (C := with_PIN C P2) json
    = match AES_GCM_decrypt (getWrappingKey P2 (salt_at st)) (iv_at st)
              (wrapped_at P1 self st) with
      | Some data =>
          Ok (mkCredSrc (src_id self)
                (mkKey (algorithm (src_privateKey self)) true [UsageSign] data)
                (src_rpId self) (src_userHandle self) "public-key")
      | None => Throw IntegrityFailure
      end ∧
    (aead_correct W →
     getWrappingKey P2 (salt_at st) = getWrappingKey P1 (salt_at st) →
     import (C := with_PIN C P2) json
     = Ok (mkCredSrc (src_id self)
             (mkKey (algorithm (src_privateKey self)) true [UsageSign]
                (material (src_privateKey self)))
             (src_rpId self) (src_userHandle self) "public-key")).

(** A bundle of two public backup keys. *)
Definition sample_bundle : list BundledKey :=
  [ mkBundledKey "YjE" [Byte.x0a]; mkBundledKey "YjI" [Byte.x0b] ].

(** What a synchronisation of the backup bundle [ks] leaves, and what
    follows it: the pool holds the keys of the bundle in their order, each
    under its [kid]; they are what [fetchPSKKeys] reads, and as many pops
    as the bundle has keys hand them out last first and leave the empty
    pool.  The other slots and stores are as in [st]. *)
Definition refills_pool `{W : Platform} (ks : list BundledKey) (st : State) : Prop :=
  ∃ st' st'',
    syncBackupKeys (Response 200 (Some ks)) st = (Ok tt, st') ∧
    fetchPSKKeys BACKUP st' = (Ok (parse_key <$> (bundle_entry <$> ks)), st') ∧
    psk_id <$> (parse_key <$> (bundle_entry <$> ks)) = bundled_kid <$> ks ∧
    (∀ k, k ≠ BACKUP → sync st' !! k = sync st !! k) ∧
    local st' = local st ∧ keys st' = keys st ∧
    popN BACKUP (length ks) st'
    = (Ok (rev (parse_key <$> (bundle_entry <$> ks))), st'') ∧
    sync st'' !! BACKUP = Some [].
(** * Properties *)

(** ** The endpoint slot *)

(** The callback of [getBDEndpoint] reads the key [BACKUP_KEY] of an object
    that only holds [BD_ENDPOINT]: whatever is stored, the default comes
    back. *)
Lemma getBDEndpoint_default `{C : Constants} (st : State) :
  BD_ENDPOINT ≠ BACKUP_KEY →
  getBDEndpoint st = (Ok DEFAULT_BD_ENDPOINT, st).
Proof.
  intros Hne. unfold getBDEndpoint, bind, chrome_storage_local_get.
  rewrite lookup_singleton_ne by done. reflexivity.
Qed.

(** C10, at the failing input: on the reference constants, once
    [setBDEndpoint "https://other.example"] has stored its value under
    [BD_ENDPOINT], [getBDEndpoint] still answers the default endpoint. *)
Example getBDEndpoint_after_setBDEndpoint :
  let st := snd (setBDEndpoint (C := reference_constants)
                   "https://other.example" empty_state) in
  local st !! "bd_endpoint" = Some "https://other.example" ∧
  getBDEndpoint (C := reference_constants) st = (Ok "https://bd.example", st).
Proof. split; vm_compute; reflexivity. Qed.

(** With nothing stored, [getBDEndpoint] answers the default endpoint. *)
Lemma getBDEndpoint_unset `{C : Constants} (st : State) :
  local st !! BD_ENDPOINT = None →
  getBDEndpoint st = (Ok DEFAULT_BD_ENDPOINT, st).
Proof.
  intros Hnone. unfold getBDEndpoint, bind, chrome_storage_local_get.
  rewrite Hnone.
  destruct (decide (BD_ENDPOINT = BACKUP_KEY)) as [<-|Hne].
  - rewrite lookup_singleton_eq. reflexivity.
  - rewrite lookup_singleton_ne by done. reflexivity.
Qed.

Lemma getBDEndpoint_unset_witness :
  getBDEndpoint (C := reference_constants) empty_state
  = (Ok "https://bd.example", empty_state).
Proof.
  apply (getBDEndpoint_unset (C := reference_constants) empty_state).
  reflexivity.
Defined.

(** ** The key-wrap codec *)

Lemma ToUint8_to_nat (n : nat) : n < 256 → Byte.to_nat (ToUint8 n) = n.
Proof.
  intros Hn. unfold ToUint8. rewrite Nat.mod_small by done.
  destruct (Byte.of_nat n) as [b|] eqn:Hb.
  - by apply Byte.to_of_nat.
  - apply Byte.of_nat_None_iff in Hb. lia.
Qed.

Lemma TextDecoder_TextEncoder (s : string) :
  TextDecoder_decode (TextEncoder_encode s) = s.
Proof. apply String.string_of_list_byte_of_string. Qed.

Lemma TextEncoder_TextDecoder (b : bytes) :
  TextEncoder_encode (TextDecoder_decode b) = b.
Proof. apply String.list_byte_of_string_of_list_byte. Qed.

Lemma TextEncoder_inj (s t : string) :
  TextEncoder_encode s = TextEncoder_encode t → s = t.
Proof.
  intros H. rewrite <- (TextDecoder_TextEncoder s), <- (TextDecoder_TextEncoder t).
  by rewrite H.
Qed.

Lemma subarray_segment (a pre seg post : bytes) (b e : nat) :
  a = (pre ++ seg ++ post)%list → b = length pre → e = length pre + length seg →
  subarray a (Some b) (Some e) = seg.
Proof.
  intros -> -> ->. unfold subarray. cbn.
  rewrite drop_app_length.
  replace (length pre + length seg - length pre) with (length seg) by lia.
  apply take_app_length.
Qed.

Lemma subarray_from_segment (a pre post : bytes) (b : nat) :
  a = (pre ++ post)%list → b = length pre → subarray_from a (Some b) = post.
Proof. intros -> ->. unfold subarray_from. cbn. apply drop_app_length. Qed.

(** Reading a payload of the layout back: the header lengths cut the
    segments out where [payload_of] put them. *)
Lemma import_payload `{C : Constants} `{W : Platform}
    (json : CredentialJson) (salt iv wrapped : bytes) (a : KeyAlgorithm) :
  json_round_trip W →
  base64ToByteArray (json_privateKey json) false
  = payload_of salt iv (TextEncoder_encode (JSON_stringify a)) wrapped →
  length salt = saltLength → length iv = ivLength →
  saltLength < 256 → ivLength < 256 →
  length (TextEncoder_encode (JSON_stringify a)) < 256 →
  import json
  = match unwrapKey keyExportFormat wrapped (getWrappingKey PIN salt) iv a
            true [UsageSign] with
    | Ok k => Ok (new_PublicKeyCredentialSource (json_id json) k (json_rpId json)
                    (json_userHandle json))
    | Throw e => Throw e
    | Pending => Pending
    end.
Proof.
  intros Hjson Hpay Hsalt Hiv Hs Hi Ha.
  unfold import. rewrite Hpay.
  set (alg := TextEncoder_encode (JSON_stringify a)) in *.
  set (hdr := [ToUint8 saltLength; ToUint8 ivLength; ToUint8 (length alg)]).
  assert (Hp : payload_of salt iv alg wrapped
               = (hdr ++ salt ++ iv ++ alg ++ wrapped)%list).
  { unfold payload_of. cbn [concat]. by rewrite app_nil_r. }
  assert (H0 : Byte.to_nat <$> payload_of salt iv alg wrapped !! 0 = Some saltLength).
  { rewrite Hp. cbn. by rewrite ToUint8_to_nat. }
  assert (H1 : Byte.to_nat <$> payload_of salt iv alg wrapped !! 1 = Some ivLength).
  { rewrite Hp. cbn. by rewrite ToUint8_to_nat. }
  assert (H2 : Byte.to_nat <$> payload_of salt iv alg wrapped !! 2 = Some (length alg)).
  { rewrite Hp. cbn. by rewrite ToUint8_to_nat. }
  rewrite H0, H1, H2. cbn [num_add].
  rewrite (subarray_segment _ hdr salt (iv ++ alg ++ wrapped) 3 (3 + saltLength))
    by (done || cbn; lia).
  rewrite (subarray_segment _ (hdr ++ salt) iv (alg ++ wrapped)
             (3 + saltLength) (3 + saltLength + ivLength)).
  2:{ rewrite Hp. by rewrite <- !app_assoc. }
  2:{ rewrite length_app. cbn. lia. }
  2:{ rewrite length_app. cbn. lia. }
  rewrite (subarray_segment _ (hdr ++ salt ++ iv) alg wrapped
             (3 + saltLength + ivLength) (3 + saltLength + ivLength + length alg)).
  2:{ rewrite Hp. by rewrite <- !app_assoc. }
  2:{ rewrite !length_app. cbn. lia. }
  2:{ rewrite !length_app. cbn. lia. }
  rewrite (subarray_from_segment _ (hdr ++ salt ++ iv ++ alg) wrapped).
  2:{ rewrite Hp. by rewrite <- !app_assoc. }
  2:{ rewrite !length_app. cbn. lia. }
  unfold alg. rewrite TextDecoder_TextEncoder, Hjson. reflexivity.
Qed.

Lemma export_run `{C : Constants} `{W : Platform}
    (self : PublicKeyCredentialSource) (st : State) :
  extractable (src_privateKey self) = true →
  let salt := map (entropy st) (seq (cursor st) saltLength) in
  let iv := map (entropy st) (seq (cursor st + saltLength) ivLength) in
  let alg := TextEncoder_encode (JSON_stringify (algorithm (src_privateKey self))) in
  let wrapped :=
    AES_GCM_encrypt (getWrappingKey PIN salt) iv (material (src_privateKey self)) in
  export self st
  = (Ok (mkCredentialJson (src_id self)
           (byteArrayToBase64 (payload_of salt iv alg wrapped) false)
           (src_rpId self) (src_userHandle self) (src_type self)),
     mkState (local st) (sync st) (keys st) (entropy st)
       (cursor st + saltLength + ivLength)).
Proof.
  intros Hext. cbv zeta.
  unfold export, bind, getRandomValues, lift, wrapKey, exportKey, ret. cbn.
  rewrite Hext. reflexivity.
Qed.


(** C5: for every extractable signing key and every PIN (the constant of
    the module), [import] of what [export] produced gives the key back, with
    the same material and algorithm and the usage [sign], and the three
    header bytes of the persisted payload are the lengths of the salt, IV
    and algorithm-descriptor segments.  The lengths fit the one byte the
    header gives each of them. *)
Theorem export_import_round_trip `{C : Constants} `{W : Platform}
    (self : PublicKeyCredentialSource) (st : State) :
  base64_round_trip W → json_round_trip W → aead_correct W →
  saltLength < 256 → ivLength < 256 →
  length (TextEncoder_encode (JSON_stringify (algorithm (src_privateKey self)))) < 256 →
  extractable (src_privateKey self) = true →
  round_trips self st.
Proof.
  intros Hb64 Hjson Haead Hs Hi Ha Hext.
  pose proof (export_run self st Hext) as Hrun. cbv zeta in Hrun.
  set (salt := map (entropy st) (seq (cursor st) saltLength)) in *.
  set (iv := map (entropy st) (seq (cursor st + saltLength) ivLength)) in *.
  set (alg := TextEncoder_encode (JSON_stringify (algorithm (src_privateKey self)))) in *.
  set (wrapped := AES_GCM_encrypt _ _ _) in *.
  assert (Hls : length salt = saltLength) by (unfold salt; by rewrite length_map, length_seq).
  assert (Hli : length iv = ivLength) by (unfold iv; by rewrite length_map, length_seq).
  eexists _, _, (ToUint8 saltLength), (ToUint8 ivLength), (ToUint8 (length alg)),
    salt, iv, wrapped.
  split; [exact Hrun|]. cbn [json_privateKey].
  rewrite Hb64.
  split; [unfold payload_of; cbn [concat]; by rewrite app_nil_r|].
  rewrite !ToUint8_to_nat by done.
  do 3 (split; [done|]).
  erewrite import_payload; [| done | cbn [json_privateKey]; apply Hb64 | done..].
  unfold unwrapKey, wrapped. rewrite Haead. reflexivity.
Qed.

(** The reference platform satisfies the laws. *)
Lemma unframe_frame (k m : bytes) : unframe (frame k ++ m) = Some (k, m).
Proof.
  induction k as [|b k IH]; cbn; [done|]. by rewrite IH.
Qed.

Lemma frame_inj (k k' m : bytes) : (frame k ++ m = frame k' ++ m)%list → k = k'.
Proof.
  intros H. apply (f_equal unframe) in H. rewrite !unframe_frame in H. congruence.
Qed.

Lemma bytes_eqb_refl (a : bytes) : bytes_eqb a a = true.
Proof. unfold bytes_eqb. by apply bool_decide_eq_true. Qed.

Lemma bytes_eqb_neq (a b : bytes) : a ≠ b → bytes_eqb a b = false.
Proof.
  intros Hne. unfold bytes_eqb. apply bool_decide_eq_false. intros Heq. apply Hne.
  assert (Hinj : Inj (=) (=) Byte.to_N).
  { intros x y Hxy. pose proof (Byte.of_to_N x) as Hx.
    rewrite Hxy, Byte.of_to_N in Hx. congruence. }
  by apply (inj (fmap Byte.to_N)).
Qed.

Lemma reference_base64 : base64_round_trip reference_platform.
Proof. intros b url. apply TextEncoder_TextDecoder. Qed.

Lemma reference_json : json_round_trip reference_platform.
Proof.
  intros [n c].
  change (ref_parse (ref_stringify (mkAlg n c)) = Some (mkAlg n c)).
  unfold ref_parse, ref_stringify. cbn [alg_name namedCurve].
  rewrite TextEncoder_TextDecoder, unframe_frame.
  by rewrite !TextDecoder_TextEncoder.
Qed.

Lemma reference_aead_correct : aead_correct reference_platform.
Proof.
  intros k iv m.
  change (ref_decrypt k iv (ref_encrypt k iv m) = Some m).
  unfold ref_decrypt, ref_encrypt.
  by rewrite unframe_frame, bytes_eqb_refl.
Qed.

Lemma reference_hmac_pads_key : hmac_pads_key reference_platform.
Proof.
  intros p salt Hp.
  change ((frame (ref_hmac_key (p ++ [Byte.x00])) ++ salt)%list
          = (frame (ref_hmac_key p) ++ salt)%list).
  do 2 f_equal. unfold ref_hmac_key. rewrite length_app. cbn [length].
  rewrite <- app_assoc. f_equal.
  replace (64 - length p) with (S (64 - (length p + 1))) by lia. done.
Qed.


Lemma export_import_round_trip_witness :
  round_trips (C := reference_constants) (W := reference_platform)
    sample_credential empty_state.
Proof.
  apply (export_import_round_trip (C := reference_constants)
           (W := reference_platform) sample_credential empty_state).
  - exact reference_base64.
  - exact reference_json.
  - exact reference_aead_correct.
  - cbn; lia.
  - cbn; lia.
  - vm_compute; lia.
  - reflexivity.
Defined.

(** C2, counterexample: the PIN [1234] and the same PIN followed by a NUL
    character derive the same wrapping key, as under HMAC, and the payload
    written under the first imports under the second.  So two PINs that
    differ do not always end in [IntegrityFailure]. *)
Lemma import_accepts_padded_PIN :
  "1234" ≠ PIN_NUL ∧
  ¬ rejects_every_other_PIN (C := reference_constants) (W := reference_platform).
Proof.
  split; [discriminate|]. intros Hall.
  destruct (Hall "1234" PIN_NUL sample_credential empty_state)
    as (json & st' & Hex & Him); [discriminate|reflexivity|].
  vm_compute in Hex. injection Hex as <- _.
  vm_compute in Him. discriminate Him.
Qed.

(** Two PINs of which one is the other followed by a NUL character, up to
    the block of the hash, are one PIN to the codec: what is exported under
    either imports under the other, on every platform whose key derivation
    pads as HMAC does. *)
Lemma import_under_padded_PIN `{C : Constants} `{W : Platform}
    (P1 : string) (self : PublicKeyCredentialSource) (st : State) :
  base64_round_trip W → json_round_trip W → aead_correct W → hmac_pads_key W →
  saltLength < 256 → ivLength < 256 →
  length (TextEncoder_encode (JSON_stringify (algorithm (src_privateKey self)))) < 256 →
  extractable (src_privateKey self) = true →
  length (TextEncoder_encode P1) < 64 →
  ∃ (json : CredentialJson) (st' : State),
    export (C := with_PIN C P1) self st = (Ok json, st') ∧
    import (C := with_PIN C (String.append P1 (String Ascii.zero EmptyString))) json
    = Ok (mkCredSrc (src_id self)
            (mkKey (algorithm (src_privateKey self)) true [UsageSign]
               (material (src_privateKey self)))
            (src_rpId self) (src_userHandle self) "public-key").
Proof.
  intros Hb64 Hjson Haead Hpad Hs Hi Ha Hext Hlen.
  pose proof (export_run (C := with_PIN C P1) self st Hext) as Hrun.
  cbv zeta in Hrun. cbn [with_PIN saltLength ivLength PIN] in Hrun.
  eexists _, _. split; [exact Hrun|].
  erewrite (import_payload (C := with_PIN C _));
    [ | done | cbn [json_privateKey]; apply Hb64
      | cbn [with_PIN saltLength ivLength]; by rewrite ?length_map, ?length_seq .. ].
  cbn [with_PIN PIN keyExportFormat].
  assert (Henc : TextEncoder_encode
                   (String.append P1 (String Ascii.zero EmptyString))
                 = (TextEncoder_encode P1 ++ [Byte.x00])%list).
  { clear. unfold TextEncoder_encode.
    induction P1 as [|a P1 IH]; [done|].
    change (Ascii.byte_of_ascii a
            :: String.list_byte_of_string
                 (String.append P1 (String Ascii.zero EmptyString))
            = Ascii.byte_of_ascii a
              :: (String.list_byte_of_string P1 ++ [Byte.x00])%list).
    f_equal. exact IH. }
  unfold unwrapKey, getWrappingKey.
  rewrite Henc, Hpad by done. rewrite Haead. reflexivity.
Qed.

(** C2, as amended: [import] under the PIN [P2] of what [export] wrote
    under the PIN [P1] has one failure, [IntegrityFailure], the error of
    an authenticated decryption that rejects the ciphertext under the key
    that [P2] derives with the salt of the payload; when the decryption
    accepts it, the bytes it gives are made the key, and two PINs that
    derive one wrapping key are not told apart.  The PIN is the constant
    of the module, so the two runs differ in that constant only. *)
Theorem import_under_other_PIN `{C : Constants} `{W : Platform}
    (P1 P2 : string) (self : PublicKeyCredentialSource) (st : State) :
  base64_round_trip W → json_round_trip W →
  saltLength < 256 → ivLength < 256 →
  length (TextEncoder_encode (JSON_stringify (algorithm (src_privateKey self)))) < 256 →
  extractable (src_privateKey self) = true →
  unwraps_or_fails P1 P2 self st.
Proof.
  intros Hb64 Hjson Hs Hi Ha Hext.
  pose proof (export_run (C := with_PIN C P1) self st Hext) as Hrun.
  cbv zeta in Hrun. cbn [with_PIN saltLength ivLength PIN] in Hrun.
  eexists _, _. split; [exact Hrun|].
  erewrite (import_payload (C := with_PIN C P2));
    [ | done | cbn [json_privateKey]; apply Hb64
      | cbn [with_PIN saltLength ivLength]; by rewrite ?length_map, ?length_seq .. ].
  cbn [with_PIN PIN keyExportFormat].
  unfold unwrapKey, wrapped_at, salt_at, iv_at. split.
  - by destruct (AES_GCM_decrypt _ _ _).
  - intros Haead ->. by rewrite Haead.
Qed.

Lemma import_under_other_PIN_witness :
  unwraps_or_fails (C := reference_constants) (W := reference_platform)
    "1234" "4321" sample_credential empty_state ∧
  rejected_under (C := reference_constants) (W := reference_platform)
    "1234" "4321" sample_credential empty_state.
Proof.
  split.
  - apply (import_under_other_PIN (C := reference_constants)
             (W := reference_platform) "1234" "4321" sample_credential empty_state).
    + exact reference_base64.
    + exact reference_json.
    + cbn; lia.
    + cbn; lia.
    + vm_compute; lia.
    + reflexivity.
  - vm_compute. reflexivity.
Defined.

(** A payload of the right layout whose ciphertext does not authenticate
    under the PIN ends in the same failure as a wrong PIN. *)
Lemma import_corrupted_ciphertext `{C : Constants} `{W : Platform}
    (json : CredentialJson) (salt iv wrapped : bytes) (a : KeyAlgorithm) :
  json_round_trip W →
  base64ToByteArray (json_privateKey json) false
  = payload_of salt iv (TextEncoder_encode (JSON_stringify a)) wrapped →
  length salt = saltLength → length iv = ivLength →
  saltLength < 256 → ivLength < 256 →
  length (TextEncoder_encode (JSON_stringify a)) < 256 →
  AES_GCM_decrypt (getWrappingKey PIN salt) iv wrapped = None →
  import json = Throw IntegrityFailure.
Proof.
  intros Hjson Hpay Hsalt Hiv Hs Hi Ha Hdec.
  rewrite (import_payload json salt iv wrapped a) by done.
  unfold unwrapKey. by rewrite Hdec.
Qed.
(** ** The pools *)

Lemma forM_pure {A B} (f : A → M B) (g : A → Res B) (xs : list A) (st : State) :
  (∀ x st, f x st = (g x, st)) → forM f xs st = (traverse g xs, st).
Proof.
  intros Hf. induction xs as [|x xs IH]; cbn; [done|].
  unfold bind. rewrite Hf. destruct (g x); [|done..].
  rewrite IH. by destruct (traverse g xs).
Qed.

(** [importKey] with no usage accepts the public keys and nothing else. *)
Lemma importKey_public `{W : Platform} (data : bytes) :
  jwk_kind ES256 data = PublicJwk →
  importKey "jwk" data ES256 true [] = Ok (mkKey ES256 true [] data).
Proof. intros Hk. unfold importKey. by rewrite Hk. Qed.

Lemma importKey_Ok `{W : Platform} (data : bytes) (k : CryptoKey) :
  importKey "jwk" data ES256 true [] = Ok k → jwk_kind ES256 data = PublicJwk.
Proof. unfold importKey. by destruct (jwk_kind ES256 data). Qed.

Lemma parse_item_importable `{W : Platform} (e : ExportKey) :
  importable e → parse_item (KeyItem e) = Ok (parse_key e).
Proof. intros He. unfold parse_item. by rewrite importKey_public. Qed.

Lemma parse_item_Ok `{W : Platform} (e : ExportKey) (k : PSKKey) :
  parse_item (KeyItem e) = Ok k → importable e.
Proof.
  unfold parse_item.
  destruct (importKey _ _ _ _ _) as [key| |] eqn:Hk; [|done..].
  intros _. by eapply importKey_Ok.
Qed.

Lemma traverse_parse_keys `{W : Platform} (es : list ExportKey) :
  Forall importable es →
  traverse parse_item (KeyItem <$> es) = Ok (parse_key <$> es).
Proof.
  induction 1 as [|e es He _ IH]; [done|].
  cbn [fmap list_fmap traverse]. change (list_fmap _ _ KeyItem es) with (KeyItem <$> es).
  by rewrite (parse_item_importable e He), IH.
Qed.

Lemma traverse_parse_keys_Ok `{W : Platform} (es : list ExportKey) (l : list PSKKey) :
  traverse parse_item (KeyItem <$> es) = Ok l → Forall importable es.
Proof.
  revert l. induction es as [|e es IH]; intros l Hl; [constructor|].
  cbn [fmap list_fmap traverse] in Hl.
  change (list_fmap _ _ KeyItem es) with (KeyItem <$> es) in Hl.
  destruct (parse_item (KeyItem e)) as [k| |] eqn:Hk; [|done..].
  destruct (traverse parse_item (KeyItem <$> es)) as [l'| |] eqn:Hl'; [|done..].
  constructor; [by eapply parse_item_Ok|by eapply IH].
Qed.

(** One element that does not import is enough for the whole array not to
    be read. *)
Lemma traverse_unimportable `{W : Platform} (es : list ExportKey) :
  Exists (λ e, ¬ importable e) es →
  settled (traverse parse_item (KeyItem <$> es)) = Pending.
Proof.
  intros Hex.
  destruct (traverse parse_item (KeyItem <$> es)) as [l| |] eqn:Hl; [|done..].
  apply traverse_parse_keys_Ok in Hl.
  apply Exists_exists in Hex as (e & He & Hno).
  destruct Hno. by eapply Forall_forall in Hl.
Qed.

Lemma fetchPSKKeys_run `{W : Platform} (identifier : string) (st : State) :
  fetchPSKKeys identifier st
  = (match sync st !! identifier with
     | None => Pending
     | Some items => settled (traverse parse_item items)
     end, st).
Proof.
  unfold fetchPSKKeys, bind, chrome_storage_sync_get, in_callback.
  destruct (sync st !! identifier) as [items|]; [|done].
  rewrite (forM_pure _ parse_item).
  - by destruct (traverse parse_item items).
  - intros [e|d] st0; [|done]. cbn [item_key parseJWK parse_item].
    unfold bind, lift. by destruct (importKey _ _ _ _ _).
Qed.

Lemma storePSKKeys_run `{W : Platform} (identifier : string)
    (es : list ExportKey) (st : State) :
  storePSKKeys identifier (parse_key <$> es) st
  = (Ok tt, with_sync st (<[identifier := KeyItem <$> (reexport <$> es)]> (sync st))).
Proof.
  unfold storePSKKeys, bind.
  set (g := λ k : PSKKey,
         match exportKey "jwk" (psk_key k) with
         | Ok data => Ok (mkExportKey (mkJWK None data) (psk_id k))
         | Throw e => Throw e
         | Pending => Pending
         end).
  rewrite (forM_pure _ g).
  2:{ intros k st0. unfold exportKey_jwk, bind, lift, g.
      by destruct (exportKey "jwk" (psk_key k)). }
  assert (Ht : traverse g (parse_key <$> es) = Ok (reexport <$> es)).
  { induction es as [|e l IH]; cbn; [done|]. by rewrite IH. }
  by rewrite Ht.
Qed.

(** A pop on a pool of [n + 1] keys returns the last one and persists the
    [n] others, in their order. *)
Lemma popPSKKey_run `{W : Platform} (identifier : string)
    (es : list ExportKey) (e : ExportKey) (st : State) :
  sync st !! identifier = Some (KeyItem <$> (es ++ [e])) →
  Forall importable (es ++ [e]) →
  popPSKKey identifier st
  = (Ok (parse_key e),
     with_sync st (<[identifier := KeyItem <$> (reexport <$> es)]> (sync st))).
Proof.
  intros Hpool Hall. unfold popPSKKey, bind.
  rewrite fetchPSKKeys_run, Hpool, traverse_parse_keys by done. cbn [settled].
  rewrite fmap_app. change (parse_key <$> [e]) with [parse_key e].
  rewrite last_snoc, removelast_last.
  by rewrite storePSKKeys_run.
Qed.

(** A pop on an empty pool throws and leaves the store as it was. *)
Lemma popPSKKey_empty `{W : Platform} (identifier : string) (st : State) :
  sync st !! identifier = Some [] →
  popPSKKey identifier st = (Throw (PoolExhausted identifier), st).
Proof.
  intros Hpool. unfold popPSKKey, bind.
  by rewrite fetchPSKKeys_run, Hpool.
Qed.

(** A pop on a pool with a key that does not import never settles, and
    leaves the store as it was. *)
Lemma popPSKKey_unimportable `{W : Platform} (identifier : string)
    (es : list ExportKey) (st : State) :
  sync st !! identifier = Some (KeyItem <$> es) →
  Exists (λ e, ¬ importable e) es →
  popPSKKey identifier st = (Pending, st).
Proof.
  intros Hpool Hex. unfold popPSKKey, bind.
  by rewrite fetchPSKKeys_run, Hpool, traverse_unimportable.
Qed.

(** A pop that returns a key was made on a pool of keys that import. *)
Lemma popPSKKey_Ok `{W : Platform} (identifier : string)
    (es : list ExportKey) (k : PSKKey) (st st' : State) :
  sync st !! identifier = Some (KeyItem <$> es) →
  popPSKKey identifier st = (Ok k, st') →
  Forall importable es.
Proof.
  intros Hpool Hrun. unfold popPSKKey, bind in Hrun.
  rewrite fetchPSKKeys_run, Hpool in Hrun.
  destruct (traverse parse_item (KeyItem <$> es)) as [l| |] eqn:Hl; [|done..].
  by eapply traverse_parse_keys_Ok.
Qed.

Lemma importable_reexport `{W : Platform} (es : list ExportKey) :
  Forall importable es → Forall importable (reexport <$> es).
Proof. intros Hall. apply Forall_fmap. by eapply Forall_impl. Qed.

(** The older [popBackupKey]: whatever the array holds, its last element
    (or [undefined]) is returned and the rest is stored. *)
Lemma legacy_popBackupKey_run (identifier : string) (items : list JsonItem)
    (st : State) :
  sync st !! identifier = Some items →
  RecoveryTs.popBackupKey identifier st
  = (Ok (last items),
     with_sync st (<[identifier := removelast items]> (sync st))).
Proof.
  intros Hpool.
  unfold RecoveryTs.popBackupKey, RecoveryTs.fetchBackupKeys,
    RecoveryTs.storeBackupKeys, bind, chrome_storage_sync_get, in_callback.
  by rewrite Hpool.
Qed.

(** C7, at the failing input: on a backup pool that ran empty, the
    [popBackupKey] of [src/recovery.ts] does not fail: it returns
    [undefined] and stores the empty pool again, where [popPSKKey] of the
    newer module throws [PoolExhausted]. *)
Example legacy_popBackupKey_empty_pool `{W : Platform} :
  sync exhausted_state !! "backup" = Some [] ∧
  RecoveryTs.popBackupKey "backup" exhausted_state = (Ok None, exhausted_state) ∧
  popPSKKey "backup" exhausted_state
  = (Throw (PoolExhausted "backup"), exhausted_state).
Proof. repeat split; vm_compute; reflexivity. Qed.

(** The ids that [n] pops return are the last [n] ids of the pool, last
    first, and the pool keeps the ids before them. *)
Lemma popN_ids `{W : Platform} (identifier : string) (n : nat) :
  ∀ (es : list ExportKey) (st st' : State) (ks : list PSKKey),
    sync st !! identifier = Some (KeyItem <$> es) →
    popN identifier n st = (Ok ks, st') →
    ∃ (front back : list string) (es' : list ExportKey),
      ek_id <$> es = front ++ back ∧
      psk_id <$> ks = rev back ∧
      length back = n ∧
      sync st' !! identifier = Some (KeyItem <$> es') ∧
      ek_id <$> es' = front.
Proof.
  induction n as [|n IH]; intros es st st' ks Hpool Hrun.
  - cbn in Hrun. injection Hrun as <- <-.
    exists (ek_id <$> es), [], es. by rewrite app_nil_r.
  - cbn [popN] in Hrun. unfold bind in Hrun.
    destruct (popPSKKey identifier st) as [[k| |] st0] eqn:Hpop; [|done..].
    pose proof (popPSKKey_Ok _ _ _ _ _ Hpool Hpop) as Hall.
    destruct es as [|e es _] using rev_ind.
    + by rewrite (popPSKKey_empty _ _ Hpool) in Hpop.
    + rewrite (popPSKKey_run _ _ _ _ Hpool Hall) in Hpop.
      injection Hpop as <- <-.
      set (st1 := with_sync st _) in Hrun.
      destruct (popN identifier n st1) as [[ks'| |] st2] eqn:Hrest; [|done..].
      injection Hrun as <- <-.
      assert (Hpool1 : sync st1 !! identifier = Some (KeyItem <$> (reexport <$> es))).
      { unfold st1. cbn. apply lookup_insert_eq. }
      destruct (IH _ _ _ _ Hpool1 Hrest) as (front & back & es' & Hids & Hks & Hlen & Hst & Hes').
      exists front, (back ++ [ek_id e]), es'.
      rewrite <- list_fmap_compose in Hids.
      repeat split.
      * rewrite fmap_app, app_assoc. f_equal. rewrite <- Hids.
        by apply list_fmap_ext.
      * cbn. rewrite rev_app_distr. cbn. by rewrite Hks.
      * rewrite length_app. cbn. lia.
      * done.
      * done.
Qed.

(** In a pool whose ids are pairwise distinct, no sequence of pops returns
    an id twice. *)
Lemma popN_NoDup `{W : Platform} (identifier : string) (n : nat)
    (es : list ExportKey) (st st' : State) (ks : list PSKKey) :
  sync st !! identifier = Some (KeyItem <$> es) →
  NoDup (ek_id <$> es) →
  popN identifier n st = (Ok ks, st') →
  NoDup (psk_id <$> ks).
Proof.
  intros Hpool Hnd Hrun.
  destruct (popN_ids _ _ _ _ _ _ Hpool Hrun) as (front & back & es' & Hids & Hks & _).
  rewrite Hids in Hnd. apply NoDup_app in Hnd as (_ & _ & Hback).
  rewrite Hks. by apply NoDup_ListNoDup, List.NoDup_rev, NoDup_ListNoDup.
Qed.

(** The pool discipline of [popPSKKey], for a pool of keys that import
    (the public keys of the backup pool): a pop on [n + 1] keys returns
    the last one and persists the [n] others at once; a pop on the empty
    pool throws [PoolExhausted] and changes nothing; and in a pool of
    pairwise distinct ids no sequence of pops returns an id twice.  A pool
    that holds a key which does not import (a private key, as in the
    recovery pool) is never popped: the pop does not settle, and the pool
    stays as it is. *)
Theorem popPSKKey_discipline `{W : Platform} (identifier : string) (st : State) :
  (∀ (es : list ExportKey) (e : ExportKey),
     sync st !! identifier = Some (KeyItem <$> (es ++ [e])) →
     Forall importable (es ++ [e]) →
     ∃ st', popPSKKey identifier st = (Ok (parse_key e), st') ∧
            sync st' !! identifier = Some (KeyItem <$> (reexport <$> es)) ∧
            Forall importable (reexport <$> es) ∧
            length (reexport <$> es) = length es ∧
            ek_id <$> (reexport <$> es) = ek_id <$> es) ∧
  (sync st !! identifier = Some [] →
   popPSKKey identifier st = (Throw (PoolExhausted identifier), st)) ∧
  (∀ es : list ExportKey,
     sync st !! identifier = Some (KeyItem <$> es) →
     Exists (λ e, ¬ importable e) es →
     popPSKKey identifier st = (Pending, st)) ∧
  (∀ (es : list ExportKey) (n : nat) (ks : list PSKKey) (st' : State),
     sync st !! identifier = Some (KeyItem <$> es) →
     NoDup (ek_id <$> es) →
     popN identifier n st = (Ok ks, st') →
     NoDup (psk_id <$> ks)).
Proof.
  split; [|split; [|split]].
  - intros es e Hpool Hall. eexists. split; [by apply popPSKKey_run|].
    cbn. rewrite lookup_insert_eq, length_fmap.
    split; [done|]. split.
    { apply importable_reexport. by apply Forall_app in Hall as [? _]. }
    split; [done|].
    rewrite <- list_fmap_compose. by apply list_fmap_ext.
  - apply popPSKKey_empty.
  - intros es. apply popPSKKey_unimportable.
  - intros es n ks st' Hpool Hnd Hrun. by eapply popN_NoDup.
Qed.

(** Two pops on the sample pool return its two ids, last first. *)
Example popN_sample :
  ∃ st', popN (W := reference_platform) BACKUP 2 pools_state
         = (Ok (parse_key <$> rev backup_pool), st') ∧
         sync st' !! BACKUP = Some [].
Proof. eexists. split; vm_compute; reflexivity. Qed.

(** ** Delegations and the recovery flow *)

Lemma getDelegation_run (credentialId : string) (st : State) :
  getDelegation credentialId st
  = (match sync st !! DELEGATION with
     | None => Pending
     | Some del => Ok (found_delegation credentialId del)
     end, st).
Proof.
  unfold getDelegation, fetchDelegations, bind, chrome_storage_sync_get, in_callback.
  by destruct (sync st !! DELEGATION).
Qed.

(** C4, at the failing input: with the delegations of [YjE] and [YjI]
    stored in this order, the lookup of [YjI] answers the delegation of
    [YjE]: the first stored record, not the first matching one. *)
Example getDelegation_first_stored :
  backupId delegation_1 ≠ "YjI" ∧
  backupId delegation_2 = "YjI" ∧
  getDelegation "YjI" recovery_state
  = (Ok (Some (DelegationItem delegation_1)), recovery_state).
Proof.
  split; [discriminate|]. split; [reflexivity|]. vm_compute. reflexivity.
Qed.

(** When a record matches, the answer is the head of the stored array. *)
Lemma found_delegation_head (credentialId : string) (del : list JsonItem) (x : JsonItem) :
  found_delegation credentialId del = Some x → del !! 0 = Some x.
Proof.
  unfold found_delegation. by destruct (negb _).
Qed.




Lemma getRecoveryKey_run `{W : Platform} (credentialId : option string) (st : State) :
  getRecoveryKey credentialId st
  = (match sync st !! RECOVERY with
     | None => Pending
     | Some items =>
         match traverse parse_item items with
         | Throw _ | Pending => Pending
         | Ok rks => Ok (found_key credentialId rks)
         end
     end, st).
Proof.
  unfold getRecoveryKey, bind. rewrite fetchPSKKeys_run.
  destruct (sync st !! RECOVERY) as [items|]; [|done].
  by destruct (traverse parse_item items).
Qed.

Lemma getRecoveryOptions_run `{W : Platform} (credentialId : string) (st : State) :
  getRecoveryOptions credentialId st
  = (recovery_options credentialId (sync st !! DELEGATION) (sync st !! RECOVERY), st).
Proof.
  unfold getRecoveryOptions, bind, recovery_options.
  rewrite getDelegation_run.
  destruct (sync st !! DELEGATION) as [del|]; [|done].
  destruct (found_delegation credentialId del) as [d|]; [|done].
  rewrite getRecoveryKey_run.
  destruct (sync st !! RECOVERY) as [items|]; [|done].
  by destruct (traverse parse_item items).
Qed.


(** *** Computations that do not touch the synchronised store *)

Lemma blind_ret {A} (a : A) : sync_blind (ret a).
Proof. by intros g st. Qed.

Lemma blind_throw {A} (e : Exn) : sync_blind (throw (A := A) e).
Proof. by intros g st. Qed.

Lemma blind_lift {A} (r : Res A) : sync_blind (lift r).
Proof. by intros g st. Qed.

Lemma blind_bind {A B} (m : M A) (k : A → M B) :
  sync_blind m → (∀ a, sync_blind (k a)) → sync_blind (bind m k).
Proof.
  intros Hm Hk g st. unfold bind. rewrite Hm.
  destruct (m st) as [[a|e|] st1]; cbn; [|done..].
  by rewrite Hk.
Qed.

Lemma blind_getRandomValues (n : nat) : sync_blind (getRandomValues n).
Proof. by intros g st. Qed.

Lemma blind_saveKey `{C : Constants} `{W : Platform} (key pin : string)
    (privateKey : CryptoKey) :
  sync_blind (saveKey key privateKey pin).
Proof.
  unfold saveKey.
  repeat (apply blind_bind; [first [apply blind_getRandomValues | apply blind_lift]|
                             intros ?]).
  by intros g st.
Qed.



(** *** The signature of a delegation is never read *)






(** C9: the recovery flow does not depend on the origin its caller
    supplies.  Two calls that differ in the origin only have the same
    outcome, and in an assertion the client data is built for the fixed
    origin [http://localhost:9005], which also stands in for the relying
    party id when the request names none. *)
Theorem recover_ignores_origin `{C : Constants} `{W : Platform}
    (o1 o2 pin : string) (opts : PublicKeyCredentialRequestOptions) (st : State) :
  recover o1 opts pin st = recover o2 opts pin st ∧
  ∀ (cred : Credential) (st' : State),
    recover o1 opts pin st = (Ok (Some cred), st') →
    ∃ rkPrv : ICOSECompatibleKey,
      clientDataJSON (response cred)
      = base64ToByteArray
          (btoa (generateClientData rkPrv (req_challenge opts)
                   (mkExtra "http://localhost:9005" (Some "not-supported")
                      "webauthn.get"))) false ∧
      authenticatorData (response cred)
      = generateAuthenticatorData rkPrv
          (rpId_or_domain (req_rpId opts) "http://localhost:9005") 0 [] None.
Proof.
  split; [reflexivity|].
  intros cred st' Hrun. unfold recover in Hrun.
  destruct (allowCredentials opts) as [creds|]; [|discriminate Hrun].
  destruct (creds !! 0) as [c|]; [|discriminate Hrun].
  run_cases Hrun.
  injection Hrun as <- <-. eexists. split; reflexivity.
Qed.

(** ** The creation flow *)

Lemma with_sync_id (st : State) : with_sync st (sync st) = st.
Proof. by destruct st. Qed.

(** A computation that is blind to the synchronised store leaves it as it
    is. *)
Lemma blind_sync {A} (m : M A) (st : State) :
  sync_blind m → sync (snd (m st)) = sync st.
Proof.
  intros Hm. pose proof (Hm (λ _, sync st) st) as H.
  rewrite with_sync_id in H.
  apply (f_equal (λ p, sync (snd p))) in H. cbn in H. done.
Qed.

Lemma blind_keyExists (key : string) : sync_blind (keyExists key).
Proof. by intros g st. Qed.

Lemma blind_getCompatibleKey `{W : Platform} (params : list Z) :
  sync_blind (getCompatibleKey params).
Proof.
  unfold getCompatibleKey. destruct (List.find _ _); [|apply blind_throw].
  apply blind_bind; [apply blind_getRandomValues|]. intros seed. apply blind_ret.
Qed.

Lemma blind_createPSKSetupExtensionOutput `{W : Platform} (bckpKey : BackupKey) :
  sync_blind (createPSKSetupExtensionOutput bckpKey).
Proof.
  unfold createPSKSetupExtensionOutput, pskSetupExtensionOutput.
  apply blind_bind; [apply blind_lift|]. intros ck. apply blind_ret.
Qed.

(** The creation flow up to the backup key: with attestation [none] and a
    pool of [n + 1] backup keys, the last key is popped and the rest of the
    flow runs on the store with the [n] others. *)
Lemma processCredentialCreation_pop `{C : Constants} `{W : Platform}
    (origin pin : string) (opts : PublicKeyCredentialCreationOptions)
    (es : list ExportKey) (e : ExportKey) (st : State) :
  attestation opts = Some "none" →
  sync st !! BACKUP = Some (KeyItem <$> (es ++ [e])) →
  Forall importable (es ++ [e]) →
  ∃ rest : M (option PublicKeyCredential),
    sync_blind rest ∧
    processCredentialCreation origin opts pin st
    = rest (with_sync st (<[BACKUP := KeyItem <$> (reexport <$> es)]> (sync st))) ∧
    ∀ st1,
      rest st1
      = (exists_ <- keyExists (byteArrayToBase64 (base64ToByteArray (ek_id e) true) true) ;;
         if (exists_ : bool)
         then throw (DuplicateCredential
                       (byteArrayToBase64 (base64ToByteArray (ek_id e) true) true))
         else
           compatibleKey <- getCompatibleKey (pubKeyCredParams opts) ;;
           extOutput <- (if hasExtension (cre_extensions opts) PSK
                         then out <- createPSKSetupExtensionOutput (parse_key e) ;;
                              ret (Some out)
                         else ret None) ;;
           match privateKey compatibleKey with
           | None => throw TypeError
           | Some prv =>
               saveKey (byteArrayToBase64 (base64ToByteArray (ek_id e) true) true)
                 prv pin
           end ;;;
           ret (Some (mkPublicKeyCredential
                        (byteArrayToBase64 (base64ToByteArray (ek_id e) true) true)
                        (base64ToByteArray (ek_id e) true)
                        (mkAttestationResponse
                           (CBOR_encodeCanonical_attestation
                              (generateAuthenticatorData compatibleKey
                                 (rpId_or_domain (rp_id opts) origin) 0
                                 (base64ToByteArray (ek_id e) true) extOutput))
                           (base64ToByteArray
                              (btoa (generateClientData compatibleKey
                                       (cre_challenge opts)
                                       (mkExtra origin None "webauthn.create")))
                              false))
                        "public-key"))) st1.
Proof.
  intros Hatt Hpool Hall. eexists. split; [|split; [|intros st1; reflexivity]].
  - apply blind_bind; [apply blind_keyExists|]. intros [|]; [apply blind_throw|].
    apply blind_bind; [apply blind_getCompatibleKey|]. intros ck.
    apply blind_bind.
    { destruct (hasExtension _ _); [|apply blind_ret].
      apply blind_bind; [apply blind_createPSKSetupExtensionOutput|].
      intros out. apply blind_ret. }
    intros ext. apply blind_bind.
    { destruct (privateKey ck); [apply blind_saveKey|apply blind_throw]. }
    intros _. apply blind_ret.
  - unfold processCredentialCreation. rewrite Hatt.
    rewrite bool_decide_eq_true_2 by done. cbn [negb].
    unfold bind at 1. unfold BackupKey_get, popBackupKey.
    by rewrite (popPSKKey_run _ _ _ _ Hpool Hall).
Qed.

(** C8: when the id derived for the new credential is already bound in the
    key store (which is keyed by credential id alone, whatever the relying
    party), the creation fails with [DuplicateCredential] and the key store
    is left as it was.  The backup key that gave the id has been popped by
    then, from a pool of public keys. *)
Theorem creation_rejects_duplicate `{C : Constants} `{W : Platform}
    (origin pin : string) (opts : PublicKeyCredentialCreationOptions)
    (es : list ExportKey) (e : ExportKey) (st : State) :
  attestation opts = Some "none" →
  sync st !! BACKUP = Some (KeyItem <$> (es ++ [e])) →
  Forall importable (es ++ [e]) →
  is_Some (keys st !! byteArrayToBase64 (base64ToByteArray (ek_id e) true) true) →
  processCredentialCreation origin opts pin st
  = (Throw (DuplicateCredential
              (byteArrayToBase64 (base64ToByteArray (ek_id e) true) true)),
     with_sync st (<[BACKUP := KeyItem <$> (reexport <$> es)]> (sync st))) ∧
  keys (snd (processCredentialCreation origin opts pin st)) = keys st.
Proof.
  intros Hatt Hpool Hall Hdup.
  destruct (processCredentialCreation_pop origin pin opts es e st Hatt Hpool Hall)
    as (rest & _ & Hrun & Hrest).
  rewrite Hrun, Hrest. unfold bind, keyExists. cbn [keys with_sync].
  rewrite bool_decide_eq_true_2 by done. done.
Qed.

Lemma creation_rejects_duplicate_witness :
  processCredentialCreation (C := reference_constants) (W := reference_platform)
    "https://other.example" (sample_creation true) "1234" resynced_state
  = (Throw (DuplicateCredential "YjI"),
     with_sync resynced_state
       (<[BACKUP := KeyItem <$> (reexport <$> [mkExportKey (sample_jwk Byte.x0a (Some "YjE")) "YjE"])]>
          (sync resynced_state))) ∧
  keys (snd (processCredentialCreation (C := reference_constants)
               (W := reference_platform) "https://other.example"
               (sample_creation true) "1234" resynced_state))
  = keys resynced_state.
Proof.
  apply (creation_rejects_duplicate (C := reference_constants)
           (W := reference_platform) "https://other.example" "1234"
           (sample_creation true)
           [mkExportKey (sample_jwk Byte.x0a (Some "YjE")) "YjE"]
           (mkExportKey (sample_jwk Byte.x0b (Some "YjI")) "YjI")
           resynced_state).
  - reflexivity.
  - vm_compute. reflexivity.
  - by repeat constructor.
  - eexists. vm_compute. reflexivity.
Defined.

(** C3, counterexample: a creation request without the recovery extension,
    on a pool of two backup keys, returns a credential whose id is the id
    of the backup key [YjI], and leaves one key in the pool. *)
Lemma creation_pops_without_extension :
  hasExtension (cre_extensions (sample_creation false)) PSK = false ∧
  (∃ (cred : PublicKeyCredential) (st' : State),
     processCredentialCreation (C := reference_constants) (W := reference_platform)
       "https://example.com" (sample_creation false) "1234" pools_state
     = (Ok (Some cred), st') ∧
     pkc_id cred = "YjI" ∧
     length <$> sync pools_state !! BACKUP = Some 2 ∧
     length <$> sync st' !! BACKUP = Some 1) ∧
  ¬ pops_only_for_recovery (C := reference_constants) (W := reference_platform).
Proof.
  split; [reflexivity|]. split.
  - eexists _, _. split; [vm_compute; reflexivity|]. by vm_compute.
  - intros Hprop.
    specialize (Hprop "https://example.com" "1234" (sample_creation false)
                  pools_state eq_refl).
    apply (f_equal (fmap length)) in Hprop. vm_compute in Hprop. discriminate.
Qed.

(** What [saveKey] binds the id to: the private key wrapped under the PIN
    with the salt and the IV that it draws, in the layout of [export]. *)
Lemma saveKey_Ok `{C : Constants} `{W : Platform} (key pin : string)
    (privateKey : CryptoKey) (st st' : State) :
  saveKey key privateKey pin st = (Ok tt, st') →
  let salt := map (entropy st) (seq (cursor st) saltLength) in
  let iv := map (entropy st) (seq (cursor st + saltLength) ivLength) in
  keys st'
  = <[key := byteArrayToBase64
               (payload_of salt iv
                  (TextEncoder_encode (JSON_stringify (algorithm privateKey)))
                  (AES_GCM_encrypt (getWrappingKey pin salt) iv (material privateKey)))
               false]> (keys st).
Proof.
  intros Hrun. cbv zeta.
  unfold saveKey, bind, getRandomValues, lift, wrapKey, exportKey in Hrun.
  cbn in Hrun. destruct (extractable privateKey); [|discriminate Hrun].
  by injection Hrun as <-.
Qed.

Lemma getCompatibleKey_Ok `{W : Platform} (params : list Z)
    (ck : ICOSECompatibleKey) (st st' : State) :
  getCompatibleKey params st = (Ok ck, st') → st' = drawn st 32.
Proof.
  unfold getCompatibleKey. destruct (List.find _ _); [|done].
  unfold bind, getRandomValues, ret. by intros [= _ <-].
Qed.

(** C3, as amended: whether or not the request carries the recovery
    extension, the creation flow pops a backup key, and the credential it
    returns has the id of that backup key; what it persists under that id
    is the private key of a fresh key pair for the requested algorithms,
    wrapped under the PIN.  The extension only decides whether the
    authenticator data carries an extension output. *)
Theorem creation_takes_backup_key `{C : Constants} `{W : Platform}
    (origin pin : string) (opts : PublicKeyCredentialCreationOptions)
    (es : list ExportKey) (e : ExportKey) (st : State) :
  attestation opts = Some "none" →
  sync st !! BACKUP = Some (KeyItem <$> (es ++ [e])) →
  Forall importable (es ++ [e]) →
  takes_backup_key origin pin opts es e st.
Proof.
  intros Hatt Hpool Hall. unfold takes_backup_key.
  destruct (processCredentialCreation_pop origin pin opts es e st Hatt Hpool Hall)
    as (rest & Hblind & Hrun & Hrest).
  rewrite Hrun. split.
  { rewrite (blind_sync _ _ Hblind). cbn. apply lookup_insert_eq. }
  intros cred st' Hok. rewrite Hrest in Hok. clear Hrun Hrest Hblind.
  set (st1 := with_sync st _) in *.
  unfold bind at 1 in Hok. unfold keyExists at 1 in Hok.
  destruct (bool_decide _); [discriminate Hok|].
  unfold bind at 1 in Hok.
  destruct (getCompatibleKey (pubKeyCredParams opts) st1) as [[ck|err|] st2] eqn:Hck;
    [|discriminate Hok..].
  pose proof (getCompatibleKey_Ok _ _ _ _ Hck) as ->.
  unfold bind at 1 in Hok.
  match type of Hok with
  | context [let (_, _) := ?m (drawn st1 32) in _] =>
      destruct (m (drawn st1 32)) as [[ext|err|] st3] eqn:Hext; [|discriminate Hok..]
  end.
  assert (Hst3 : st3 = drawn st1 32).
  { destruct (hasExtension (cre_extensions opts) PSK).
    - unfold createPSKSetupExtensionOutput, pskSetupExtensionOutput, bind, lift, ret
        in Hext.
      destruct (getCompatibleKeyFromCryptoKey _); [|discriminate Hext..].
      by injection Hext as _ <-.
    - by injection Hext as _ <-. }
  subst st3.
  unfold bind at 1 in Hok.
  destruct (privateKey ck) as [prv|] eqn:Hprv; [|discriminate Hok].
  destruct (saveKey _ prv pin (drawn st1 32)) as [[[]|err|] st4] eqn:Hsave;
    [|discriminate Hok..].
  injection Hok as <- <-. cbn [pkc_id pkc_rawId pkc_response att_attestationObject].
  do 2 (split; [reflexivity|]).
  exists ck, prv, ext. split; [reflexivity|]. split; [exact Hprv|].
  pose proof (saveKey_Ok _ _ _ _ _ Hsave) as Hkeys. cbv zeta in Hkeys.
  cbn [drawn entropy cursor keys st1 with_sync] in Hkeys.
  split; [|split; [|split; [reflexivity|]]].
  - cbv zeta. rewrite Hkeys. apply lookup_insert_eq.
  - intros k Hk. rewrite Hkeys. by rewrite lookup_insert_ne.
  - split; intros Hpsk; rewrite Hpsk in Hext.
    + by injection Hext as <-.
    + run_cases Hext. by injection Hext as <-.
Qed.

Lemma creation_takes_backup_key_witness :
  takes_backup_key (C := reference_constants) (W := reference_platform)
    "https://example.com" "1234" (sample_creation false)
    [mkExportKey (sample_jwk Byte.x0a (Some "YjE")) "YjE"]
    (mkExportKey (sample_jwk Byte.x0b (Some "YjI")) "YjI") pools_state.
Proof.
  apply (creation_takes_backup_key (C := reference_constants)
           (W := reference_platform)).
  - reflexivity.
  - vm_compute. reflexivity.
  - by repeat constructor.
Defined.

(** ** The assertion flow *)

(** [fetchKey] only reads the key store. *)
Lemma fetchKey_state `{C : Constants} `{W : Platform} (key pin : string) (st : State) :
  snd (fetchKey key pin st) = st.
Proof.
  unfold fetchKey. destruct (keys st !! key); [|done]. by destruct (import _).
Qed.

(** It always settles: an import ends in a key or in an exception. *)
Lemma import_settles `{C : Constants} `{W : Platform} (json : CredentialJson) :
  import json ≠ Pending.
Proof.
  unfold import. destruct (JSON_parse _); [|done].
  unfold unwrapKey. by destruct (AES_GCM_decrypt _ _ _).
Qed.

Lemma fetchKey_settles `{C : Constants} `{W : Platform} (key pin : string) (st : State) :
  fst (fetchKey key pin st) ≠ Pending.
Proof.
  unfold fetchKey. destruct (keys st !! key) as [payload|]; [|done].
  pose proof (import_settles (C := with_PIN C pin)
                (mkCredentialJson key payload EmptyString None "public-key")).
  by destruct (import _).
Qed.

(** It succeeds exactly on an id that is bound to a payload which unwraps
    under the PIN. *)
Lemma fetchKey_Ok `{C : Constants} `{W : Platform} (key pin : string)
    (k : CryptoKey) (st : State) :
  fst (fetchKey key pin st) = Ok k ↔
  ∃ payload credSrc,
    keys st !! key = Some payload ∧
    import (C := with_PIN C pin)
      (mkCredentialJson key payload EmptyString None "public-key") = Ok credSrc ∧
    src_privateKey credSrc = k.
Proof.
  unfold fetchKey. split.
  - destruct (keys st !! key) as [payload|]; [|done].
    destruct (import _) as [credSrc| |] eqn:Himp; [|done..].
    cbn. intros [= <-]. by exists payload, credSrc.
  - intros (payload & credSrc & -> & -> & <-). done.
Qed.

(** The loop stops at the first candidate whose key is fetched, and does
    not look at the candidates after it. *)
Lemma scanCredentials_first `{C : Constants} `{W : Platform} (pin : string)
    (l1 l2 : list PublicKeyCredentialDescriptor) (c : PublicKeyCredentialDescriptor)
    (key : CryptoKey) (st : State) :
  (∀ c', c' ∈ l1 →
     is_Ok (fst (fetchKey (byteArrayToBase64 (desc_id c') true) pin st)) = false) →
  fst (fetchKey (byteArrayToBase64 (desc_id c) true) pin st) = Ok key →
  scanCredentials pin (l1 ++ c :: l2) st
  = (Ok (Some (desc_id c, byteArrayToBase64 (desc_id c) true, key)), st).
Proof.
  intros Hl1 Hc. induction l1 as [|c1 l1 IH]; cbn [app scanCredentials].
  - unfold bind, catch, ret.
    pose proof (fetchKey_state (byteArrayToBase64 (desc_id c) true) pin st) as Hst.
    destruct (fetchKey _ pin st) as [r st0]. cbn in Hc, Hst. by subst.
  - unfold bind at 1. unfold catch, bind, ret.
    pose proof (fetchKey_state (byteArrayToBase64 (desc_id c1) true) pin st) as Hst.
    pose proof (Hl1 c1 ltac:(left)) as Hfail.
    pose proof (fetchKey_settles (byteArrayToBase64 (desc_id c1) true) pin st) as Hset.
    destruct (fetchKey (byteArrayToBase64 (desc_id c1) true) pin st) as [r st0].
    cbn in Hfail, Hst, Hset. subst.
    destruct r as [k1|e1|]; [by cbn in Hfail| |done]. cbn.
    apply IH. intros c' Hc'. apply Hl1. by right.
Qed.

Lemma scanCredentials_none `{C : Constants} `{W : Platform} (pin : string)
    (creds : list PublicKeyCredentialDescriptor) (st : State) :
  (∀ c, c ∈ creds →
     is_Ok (fst (fetchKey (byteArrayToBase64 (desc_id c) true) pin st)) = false) →
  scanCredentials pin creds st = (Ok None, st).
Proof.
  intros Hall. induction creds as [|c1 creds IH]; [done|].
  cbn [scanCredentials]. unfold bind at 1. unfold catch, bind, ret.
  pose proof (fetchKey_state (byteArrayToBase64 (desc_id c1) true) pin st) as Hst.
  pose proof (Hall c1 ltac:(left)) as Hfail.
  pose proof (fetchKey_settles (byteArrayToBase64 (desc_id c1) true) pin st) as Hset.
  destruct (fetchKey (byteArrayToBase64 (desc_id c1) true) pin st) as [r st0].
  cbn in Hfail, Hst, Hset. subst.
  destruct r as [k1|e1|]; [by cbn in Hfail| |done]. cbn.
  apply IH. intros c' Hc'. apply Hall. by right.
Qed.

(** C6: without the recovery extension, the assertion flow tries the
    offered ids in the order of the request.  The first id whose key is
    fetched (bound in the store and unwrapped by the PIN) is the one the
    assertion is signed for, whatever follows it in the list; and when no
    offered id has such a key the flow fails with [CredentialNotFound]. *)
Theorem assertion_selects_first_usable `{C : Constants} `{W : Platform}
    (origin pin : string) (opts : PublicKeyCredentialRequestOptions)
    (creds : list PublicKeyCredentialDescriptor) (st : State) :
  allowCredentials opts = Some creds →
  hasExtension (req_extensions opts) PSK = false →
  (∀ (l1 l2 : list PublicKeyCredentialDescriptor)
     (c : PublicKeyCredentialDescriptor) (key : CryptoKey),
     creds = l1 ++ c :: l2 →
     (∀ c', c' ∈ l1 →
        is_Ok (fst (fetchKey (byteArrayToBase64 (desc_id c') true) pin st)) = false) →
     fst (fetchKey (byteArrayToBase64 (desc_id c) true) pin st) = Ok key →
     processCredentialRequest origin opts pin st
     = signAssertion origin opts (desc_id c) (byteArrayToBase64 (desc_id c) true)
         key st) ∧
  ((∀ c, c ∈ creds →
      is_Ok (fst (fetchKey (byteArrayToBase64 (desc_id c) true) pin st)) = false) →
   processCredentialRequest origin opts pin st
   = (Throw (CredentialNotFound creds), st)).
Proof.
  intros Hallow Hext. unfold processCredentialRequest. rewrite Hallow, Hext. split.
  - intros l1 l2 c key -> Hl1 Hc. unfold bind.
    by rewrite (scanCredentials_first pin l1 l2 c key st Hl1 Hc).
  - intros Hall. unfold bind. by rewrite (scanCredentials_none pin creds st Hall).
Qed.

Lemma assertion_selects_first_usable_witness :
  ∃ key : CryptoKey,
    fst (fetchKey (C := reference_constants) (W := reference_platform)
           "YjI" "1234" registered_state) = Ok key ∧
    processCredentialRequest (C := reference_constants) (W := reference_platform)
      "https://example.com" (sample_request ["unknown"; "YjI"; "YjE"] false)
      "1234" registered_state
    = signAssertion (W := reference_platform)
        "https://example.com" (sample_request ["unknown"; "YjI"; "YjE"] false)
        (TextEncoder_encode "YjI") "YjI" key registered_state.
Proof.
  eexists. split; [vm_compute; reflexivity|].
  refine (proj1 (assertion_selects_first_usable (C := reference_constants)
                   (W := reference_platform) "https://example.com" "1234"
                   (sample_request ["unknown"; "YjI"; "YjE"] false) _
                   registered_state eq_refl eq_refl)
            [mkDescriptor (TextEncoder_encode "unknown")]
            [mkDescriptor (TextEncoder_encode "YjE")]
            (mkDescriptor (TextEncoder_encode "YjI")) _ eq_refl _ _).
  - intros c' Hc'. apply list_elem_of_singleton in Hc' as ->.
    vm_compute. reflexivity.
  - vm_compute. reflexivity.
Defined.

(** ** The reference JSON texts satisfy their laws *)

Lemma length_frame (b : bytes) : 0 < length (frame b).
Proof. destruct b; cbn; lia. Qed.

Lemma length_frames (l : list bytes) : (length l ≤ length (frames l))%nat.
Proof.
  induction l as [|b l IH]; [done|].
  unfold frames in *. cbn. rewrite length_app.
  pose proof (length_frame b). lia.
Qed.

Lemma unframes_frames (l : list bytes) (fuel : nat) :
  length l < fuel → unframes fuel (frames l) = Some l.
Proof.
  revert fuel. induction l as [|b l IH]; intros fuel Hfuel.
  - destruct fuel; [lia|done].
  - destruct fuel as [|fuel]; [lia|]. cbn [unframes].
    change (frames (b :: l)) with (frame b ++ frames l).
    destruct (frame b ++ frames l) as [|t rest] eqn:Hc.
    { pose proof (length_frame b) as Hb. apply (f_equal length) in Hc.
      rewrite length_app in Hc. cbn in Hc. lia. }
    rewrite <- Hc, unframe_frame, IH; [done|]. cbn in Hfuel. lia.
Qed.

Lemma unframes_frames_self (l : list bytes) :
  unframes (S (length (frames l))) (frames l) = Some l.
Proof. apply unframes_frames. pose proof (length_frames l). lia. Qed.

Lemma of_fields_fields_of (json : CredentialJson) :
  of_fields (fields_of json) = Some json.
Proof.
  destruct json as [i k r [u|] t]; unfold of_fields, fields_of;
    cbn [json_id json_privateKey json_rpId json_userHandle json_type];
    by rewrite !TextDecoder_TextEncoder.
Qed.

Lemma reference_array_json : array_json_round_trip reference_json_text.
Proof.
  intros l.
  change (ref_parse_array (ref_stringify_array l) = Some l).
  unfold ref_parse_array, ref_stringify_array.
  rewrite TextEncoder_TextDecoder, unframes_frames_self.
  induction l as [|json l IH]; [done|]. cbn [fmap list_fmap collect].
  rewrite unframes_frames_self, of_fields_fields_of.
  cbn [fmap list_fmap] in IH. by rewrite IH.
Qed.

Lemma reference_backupKeys_json : backupKeys_json_round_trip reference_json_text.
Proof.
  intros ids.
  change (match unframes
                  (S (length (TextEncoder_encode
                                (TextDecoder_decode (frames (TextEncoder_encode <$> ids))))))
                  (TextEncoder_encode
                     (TextDecoder_decode (frames (TextEncoder_encode <$> ids)))) with
          | Some l => Some (TextDecoder_decode <$> l)
          | None => None
          end = Some ids).
  rewrite TextEncoder_TextDecoder, unframes_frames_self.
  rewrite <- list_fmap_compose. f_equal.
  induction ids as [|i ids IH]; [done|]. cbn [fmap list_fmap compose].
  by rewrite TextDecoder_TextEncoder, IH.
Qed.

(** ** The key-wrap codec at its edges *)

(** A key that is not extractable cannot be exported: the salt and the IV
    are drawn, then [wrapKey] rejects with an [InvalidAccessError] and no
    payload is produced. *)
Theorem export_not_extractable `{C : Constants} `{W : Platform}
    (self : PublicKeyCredentialSource) (st : State) :
  extractable (src_privateKey self) = false →
  export self st
  = (Throw (DOMException "InvalidAccessError"), drawn st (saltLength + ivLength)).
Proof.
  intros Hext. unfold export, bind, getRandomValues, lift, wrapKey, exportKey, drawn.
  cbn. rewrite Hext. by rewrite Nat.add_assoc.
Qed.

Lemma export_not_extractable_witness :
  export (C := reference_constants) (W := reference_platform)
    (mkCredSrc "Y3JlZA" (mkKey ES256 false [UsageSign] [Byte.x01]) "example.com"
       None "public-key") empty_state
  = (Throw (DOMException "InvalidAccessError"), drawn empty_state 28).
Proof.
  apply (export_not_extractable (C := reference_constants) (W := reference_platform)).
  reflexivity.
Defined.

(** A payload of fewer than three bytes has no algorithm descriptor to
    parse: [import] fails with the [SyntaxError] of [JSON.parse] on the
    empty text, whatever the PIN, and yields no key. *)
Theorem import_short_payload `{C : Constants} `{W : Platform} (json : CredentialJson) :
  json_rejects_empty W →
  length (base64ToByteArray (json_privateKey json) false) < 3 →
  import json = Throw SyntaxError.
Proof.
  intros Hempty Hlen. unfold import.
  set (p := base64ToByteArray (json_privateKey json) false) in *.
  assert (H2 : p !! 2 = None) by (apply lookup_ge_None; lia).
  rewrite H2. cbn [fmap option_fmap option_map].
  set (o2 := num_add _ (Byte.to_nat <$> p !! 1)).
  assert (Halg : subarray p o2 (num_add o2 None) = []).
  { unfold subarray. by destruct o2. }
  rewrite Halg.
  change (TextDecoder_decode []) with EmptyString. by rewrite Hempty.
Qed.

Lemma import_short_payload_witness :
  import (C := reference_constants) (W := reference_platform)
    (mkCredentialJson "Y3JlZA" "ab" "example.com" None "public-key")
  = Throw SyntaxError.
Proof.
  apply (import_short_payload (C := reference_constants) (W := reference_platform)).
  - reflexivity.
  - cbn. lia.
Defined.

(** ** The credentials map *)

Lemma drawn_drawn (st : State) (n m : nat) : drawn (drawn st n) m = drawn st (n + m).
Proof. unfold drawn. cbn. by rewrite Nat.add_assoc. Qed.

Lemma drawn_0 (st : State) : drawn st 0 = st.
Proof. destruct st. unfold drawn. cbn. by rewrite Nat.add_0_r. Qed.

(** One export and the import of its result. *)
Lemma export_then_import `{C : Constants} `{W : Platform}
    (c : PublicKeyCredentialSource) (st : State) :
  base64_round_trip W → json_round_trip W → aead_correct W →
  saltLength < 256 → ivLength < 256 → exportable c →
  ∃ json, export c st = (Ok json, drawn st (saltLength + ivLength)) ∧
          import json = Ok (normal c).
Proof.
  intros Hb64 Hjson Haead Hs Hi [Hext Ha].
  pose proof (export_run c st Hext) as Hrun. cbv zeta in Hrun.
  eexists. split.
  - rewrite Hrun. unfold drawn. by rewrite Nat.add_assoc.
  - erewrite import_payload;
      [ | done | cbn [json_privateKey]; apply Hb64
        | by rewrite ?length_map, ?length_seq .. ].
    unfold unwrapKey. rewrite Haead. reflexivity.
Qed.

(** What [import] returns is in the form [import] gives. *)
Lemma import_normal `{C : Constants} `{W : Platform} (json : CredentialJson)
    (c : PublicKeyCredentialSource) :
  import json = Ok c → normal c = c.
Proof.
  unfold import. destruct (JSON_parse _); [|done].
  unfold unwrapKey. destruct (AES_GCM_decrypt _ _ _); [|done].
  by intros [= <-].
Qed.

Lemma importAll_normal `{C : Constants} `{W : Platform} (jsons : list CredentialJson)
    (l : list PublicKeyCredentialSource) :
  traverse import jsons = Ok l → normal <$> l = l.
Proof.
  revert l. induction jsons as [|json jsons IH]; intros l; cbn.
  - by intros [= <-].
  - destruct (import json) as [c| |] eqn:Hc; [|done..].
    destruct (traverse import jsons) as [l'| |]; [|done..].
    intros [= <-]. cbn. by rewrite (import_normal _ _ Hc), IH.
Qed.

(** The exports of a list, one after the other, and their imports. *)
Lemma export_all `{C : Constants} `{W : Platform}
    (l : list PublicKeyCredentialSource) (st : State) :
  base64_round_trip W → json_round_trip W → aead_correct W →
  saltLength < 256 → ivLength < 256 → Forall exportable l →
  ∃ jsons, forM export l st
           = (Ok jsons, drawn st (length l * (saltLength + ivLength))) ∧
           traverse import jsons = Ok (normal <$> l).
Proof.
  intros Hb64 Hjson Haead Hs Hi Hall. revert st.
  induction Hall as [|c l Hc _ IH]; intros st.
  - exists []. cbn. by rewrite drawn_0.
  - destruct (export_then_import c st Hb64 Hjson Haead Hs Hi Hc) as (json & Hex & Him).
    destruct (IH (drawn st (saltLength + ivLength))) as (jsons & Hexs & Hims).
    exists (json :: jsons). split.
    + cbn [forM]. unfold bind. rewrite Hex, Hexs. cbn. by rewrite drawn_drawn.
    + cbn. by rewrite Him, Hims.
Qed.

(** [load], by what the store holds under the id. *)
Lemma load_run `{C : Constants} `{W : Platform} `{J : JsonText} (rpId : string)
    (st : State) :
  CredentialsMap.load rpId st
  = (match local st !! rpId with
     | None => Ok []
     | Some text =>
         match JSON_parse_array text with
         | None => Pending
         | Some jsons => settled (traverse import jsons)
         end
     end, st).
Proof.
  unfold CredentialsMap.load, bind, chrome_storage_local_get.
  rewrite lookup_singleton_eq.
  destruct (local st !! rpId) as [text|]; [|done].
  unfold in_callback, bind, CredentialsMap.JSON_parse_credentials.
  destruct (JSON_parse_array text) as [jsons|]; [|done]. cbn.
  rewrite (forM_pure _ import) by done.
  by destruct (traverse import jsons).
Qed.

Lemma exists_run (rpId : string) (st : State) :
  CredentialsMap.exists_ rpId st = (Ok (bool_decide (is_Some (local st !! rpId))), st).
Proof.
  unfold CredentialsMap.exists_, bind, chrome_storage_local_get.
  rewrite lookup_singleton_eq. by destruct (local st !! rpId).
Qed.

(** The first entry with an id is what the filter of [lookup] starts
    with. *)
Lemma filter_head_find {A} (f : A → bool) (l : list A) :
  (if Nat.eqb (length (List.filter f l)) 0 then None else List.filter f l !! 0)
  = List.find f l.
Proof.
  induction l as [|x l IH]; [done|]. cbn. by destruct (f x).
Qed.

Lemma lookup_run `{C : Constants} `{W : Platform} `{J : JsonText}
    (rpId credSrcId : string) (l : list PublicKeyCredentialSource) (st : State) :
  CredentialsMap.load rpId st = (Ok l, st) →
  CredentialsMap.lookup rpId credSrcId st
  = (Ok (List.find (λ x, String.eqb (src_id x) credSrcId) l), st).
Proof.
  intros Hload. unfold CredentialsMap.lookup, bind. rewrite Hload.
  unfold ret. by rewrite filter_head_find.
Qed.

Lemma load_normal `{C : Constants} `{W : Platform} `{J : JsonText} (rpId : string)
    (old : list PublicKeyCredentialSource) (st st' : State) :
  CredentialsMap.load rpId st = (Ok old, st') → normal <$> old = old.
Proof.
  rewrite load_run. intros Hload.
  destruct (local st !! rpId) as [text|]; [|by injection Hload as <- _].
  destruct (JSON_parse_array text) as [jsons|]; [|done].
  destruct (traverse import jsons) as [l| |] eqn:Hl; [|done..].
  injection Hload as <- _. by eapply importAll_normal.
Qed.

Lemma load_absent `{C : Constants} `{W : Platform} `{J : JsonText} (rpId : string)
    (old : list PublicKeyCredentialSource) (st st' : State) :
  local st !! rpId = None →
  CredentialsMap.load rpId st = (Ok old, st') → old = [].
Proof. rewrite load_run. intros ->. by intros [= <- _]. Qed.

(** The store after [put]: the text under [rpId] is replaced by that of
    the exports of the loaded entries and of the new one, and a salt and an
    IV were drawn for each of them. *)
Lemma put_run `{C : Constants} `{W : Platform} `{J : JsonText} (rpId : string)
    (c : PublicKeyCredentialSource) (old : list PublicKeyCredentialSource)
    (st : State) :
  base64_round_trip W → json_round_trip W → aead_correct W →
  saltLength < 256 → ivLength < 256 →
  CredentialsMap.load rpId st = (Ok old, st) →
  Forall exportable (old ++ [c]) →
  ∃ jsons,
    CredentialsMap.put rpId c st
    = (Ok tt,
       with_local (drawn st (length (old ++ [c]) * (saltLength + ivLength)))
         (<[rpId := JSON_stringify_array jsons]> (local st))) ∧
    traverse import jsons = Ok (old ++ [normal c]).
Proof.
  intros Hb64 Hjson Haead Hs Hi Hload Hall.
  destruct (export_all (old ++ [c]) st Hb64 Hjson Haead Hs Hi Hall)
    as (jsons & Hexs & Hims).
  exists jsons. split.
  - unfold CredentialsMap.put, bind. rewrite exists_run.
    destruct (local st !! rpId) as [text|] eqn:Hl.
    + rewrite bool_decide_eq_true_2 by done.
      rewrite Hload. unfold ret. by rewrite Hexs.
    + rewrite bool_decide_eq_false_2 by (by intros [? ?]).
      pose proof (load_absent _ _ _ _ Hl Hload) as ->.
      unfold ret. change ([] ++ [c])%list with [c] in Hexs. by rewrite Hexs.
  - rewrite Hims, fmap_app. by rewrite (load_normal _ _ _ _ Hload).
Qed.

Lemma load_after_put `{C : Constants} `{W : Platform} `{J : JsonText} (rpId : string)
    (jsons : list CredentialJson) (l : list PublicKeyCredentialSource)
    (st : State) (n : nat) :
  array_json_round_trip J →
  traverse import jsons = Ok l →
  let st' := with_local (drawn st n) (<[rpId := JSON_stringify_array jsons]> (local st)) in
  CredentialsMap.load rpId st' = (Ok l, st').
Proof.
  intros Harr Hl st'. rewrite load_run. unfold st'. cbn [local with_local].
  by rewrite lookup_insert_eq, Harr, Hl.
Qed.

(** [load] after [put] answers the entries that were there, in their
    order, followed by the new one as [import] reads it; nothing but the
    text under [rpId] changes in the stores. *)
Theorem put_then_load `{C : Constants} `{W : Platform} `{J : JsonText}
    (rpId : string) (c : PublicKeyCredentialSource)
    (old : list PublicKeyCredentialSource) (st : State) :
  base64_round_trip W → json_round_trip W → aead_correct W →
  array_json_round_trip J →
  saltLength < 256 → ivLength < 256 →
  CredentialsMap.load rpId st = (Ok old, st) →
  Forall exportable (old ++ [c]) →
  ∃ st', CredentialsMap.put rpId c st = (Ok tt, st') ∧
         CredentialsMap.load rpId st' = (Ok (old ++ [normal c]), st') ∧
         (∀ k, k ≠ rpId → local st' !! k = local st !! k) ∧
         sync st' = sync st ∧ keys st' = keys st.
Proof.
  intros Hb64 Hjson Haead Harr Hs Hi Hload Hall.
  destruct (put_run rpId c old st Hb64 Hjson Haead Hs Hi Hload Hall)
    as (jsons & Hput & Hims).
  eexists. split; [exact Hput|]. split; [by apply load_after_put|].
  split; [|done]. intros k Hk. cbn. by rewrite lookup_insert_ne.
Qed.

Lemma put_then_load_witness :
  ∃ st', CredentialsMap.put (C := reference_constants) (W := reference_platform)
           (J := reference_json_text) "example.com" sample_credential empty_state
         = (Ok tt, st') ∧
         CredentialsMap.load (C := reference_constants) (W := reference_platform)
           (J := reference_json_text) "example.com" st'
         = (Ok ([] ++ [normal sample_credential]), st') ∧
         (∀ k, k ≠ "example.com" → local st' !! k = local empty_state !! k) ∧
         sync st' = sync empty_state ∧ keys st' = keys empty_state.
Proof.
  apply (put_then_load (C := reference_constants) (W := reference_platform)
           (J := reference_json_text) "example.com" sample_credential [] empty_state).
  - exact reference_base64.
  - exact reference_json.
  - exact reference_aead_correct.
  - exact reference_array_json.
  - cbn; lia.
  - cbn; lia.
  - reflexivity.
  - constructor; [split; [reflexivity|vm_compute; lia]|constructor].
Defined.

Lemma first_with_id_app (credSrcId : string)
    (old : list PublicKeyCredentialSource) (c : PublicKeyCredentialSource) :
  first_with_id credSrcId (old ++ [c])
  = match first_with_id credSrcId old with
    | Some x => Some x
    | None => if String.eqb (src_id c) credSrcId then Some c else None
    end.
Proof.
  unfold first_with_id. induction old as [|x old IH]; cbn; [done|].
  by destruct (String.eqb (src_id x) credSrcId).
Qed.

(** [lookup] after [put] answers the first entry with the id: an entry
    that was there under the same id is the one found, the new one is
    reached only when no older entry has its id, and another id is
    [null].  [put] itself takes a second entry with an id that is there. *)
Theorem put_then_lookup `{C : Constants} `{W : Platform} `{J : JsonText}
    (rpId : string) (c : PublicKeyCredentialSource)
    (old : list PublicKeyCredentialSource) (st : State) :
  base64_round_trip W → json_round_trip W → aead_correct W →
  array_json_round_trip J →
  saltLength < 256 → ivLength < 256 →
  CredentialsMap.load rpId st = (Ok old, st) →
  Forall exportable (old ++ [c]) →
  ∃ st', CredentialsMap.put rpId c st = (Ok tt, st') ∧
         ∀ credSrcId,
           CredentialsMap.lookup rpId credSrcId st'
           = (Ok match first_with_id credSrcId old with
                          | Some x => Some x
                          | None => if String.eqb (src_id c) credSrcId
                                    then Some (normal c) else None
                          end, st').
Proof.
  intros Hb64 Hjson Haead Harr Hs Hi Hload Hall.
  destruct (put_run rpId c old st Hb64 Hjson Haead Hs Hi Hload Hall)
    as (jsons & Hput & Hims).
  eexists. split; [exact Hput|]. intros credSrcId.
  erewrite lookup_run by (by apply load_after_put).
  fold (first_with_id credSrcId (old ++ [normal c])).
  by rewrite first_with_id_app.
Qed.

Lemma put_then_lookup_witness :
  ∃ st', CredentialsMap.put (C := reference_constants) (W := reference_platform)
           (J := reference_json_text) "example.com" sample_credential_2 stored_state
         = (Ok tt, st') ∧
         ∀ credSrcId,
           CredentialsMap.lookup (C := reference_constants) (W := reference_platform)
             (J := reference_json_text) "example.com" credSrcId st'
           = (Ok match first_with_id credSrcId [normal sample_credential] with
                          | Some x => Some x
                          | None => if String.eqb (src_id sample_credential_2) credSrcId
                                    then Some (normal sample_credential_2) else None
                          end, st').
Proof.
  apply (put_then_lookup (C := reference_constants) (W := reference_platform)
           (J := reference_json_text) "example.com" sample_credential_2
           [normal sample_credential] stored_state).
  - exact reference_base64.
  - exact reference_json.
  - exact reference_aead_correct.
  - exact reference_array_json.
  - cbn; lia.
  - cbn; lia.
  - vm_compute; reflexivity.
  - constructor; [split; [reflexivity|vm_compute; lia]|].
    constructor; [split; [reflexivity|vm_compute; lia]|constructor].
Defined.

(** What was exported under one PIN and does not authenticate under the
    key of another does not import under it. *)
Lemma export_rejected_under `{C : Constants} `{W : Platform} (P1 P2 : string)
    (c : PublicKeyCredentialSource) (st : State) :
  base64_round_trip W → json_round_trip W →
  saltLength < 256 → ivLength < 256 →
  exportable c →
  rejected_under P1 P2 c st →
  ∃ json, export (C := with_PIN C P1) c st = (Ok json, drawn st (saltLength + ivLength)) ∧
          import (C := with_PIN C P2) json = Throw IntegrityFailure.
Proof.
  intros Hb64 Hjson Hs Hi [Hext Ha] Hrej.
  pose proof (export_run (C := with_PIN C P1) c st Hext) as Hrun.
  cbv zeta in Hrun. cbn [with_PIN saltLength ivLength PIN] in Hrun.
  eexists. split.
  { rewrite Hrun. unfold drawn. by rewrite Nat.add_assoc. }
  erewrite (import_payload (C := with_PIN C P2));
    [ | done | cbn [json_privateKey]; apply Hb64
      | cbn [with_PIN saltLength ivLength]; by rewrite ?length_map, ?length_seq .. ].
  cbn [with_PIN PIN keyExportFormat].
  unfold unwrapKey. unfold rejected_under, wrapped_at, salt_at, iv_at in Hrej.
  by rewrite Hrej.
Qed.

(** An entry written under one PIN is lost to the module under a PIN
    whose key does not authenticate it, and silently: [load] and [lookup]
    of the relying party do not settle, neither resolved nor rejected, and
    no further [put] for it comes back.  The stores are left as they
    are.  (It is the first entry of the array that decides: [x], which
    [put] exports first, in the state it is called in.) *)
Theorem load_under_other_PIN `{C : Constants} `{W : Platform} `{J : JsonText}
    (P1 P2 : string) (rpId : string) (c x : PublicKeyCredentialSource)
    (old : list PublicKeyCredentialSource) (st : State) :
  base64_round_trip W → json_round_trip W → aead_correct W →
  array_json_round_trip J →
  saltLength < 256 → ivLength < 256 →
  CredentialsMap.load (C := with_PIN C P1) rpId st = (Ok old, st) →
  Forall exportable (old ++ [c]) →
  head (old ++ [c]) = Some x →
  rejected_under P1 P2 x st →
  ∃ st', CredentialsMap.put (C := with_PIN C P1) rpId c st = (Ok tt, st') ∧
         CredentialsMap.load (C := with_PIN C P2) rpId st' = (Pending, st') ∧
         (∀ credSrcId,
            CredentialsMap.lookup (C := with_PIN C P2) rpId credSrcId st'
            = (Pending, st')) ∧
         (∀ c', CredentialsMap.put (C := with_PIN C P2) rpId c' st' = (Pending, st')).
Proof.
  intros Hb64 Hjson Haead Harr Hs Hi Hload Hall Hhead Hrej.
  assert (Hjsons : ∃ json jsons,
            forM (export (C := with_PIN C P1)) (old ++ [c]) st
            = (Ok (json :: jsons),
               drawn st (length (old ++ [c]) * (saltLength + ivLength))) ∧
            import (C := with_PIN C P2) json = Throw IntegrityFailure).
  { destruct (old ++ [c]) as [|y l] eqn:Hl; [done|]. injection Hhead as ->.
    apply Forall_cons in Hall as [Hx Hl'].
    destruct (export_rejected_under P1 P2 x st Hb64 Hjson Hs Hi Hx Hrej)
      as (json & Hex & Him).
    destruct (export_all (C := with_PIN C P1) l (drawn st (saltLength + ivLength))
                Hb64 Hjson Haead Hs Hi Hl') as (jsons & Hexs & _).
    exists json, jsons. split; [|done].
    cbn [forM]. unfold bind. rewrite Hex, Hexs. cbn.
    by rewrite drawn_drawn. }
  destruct Hjsons as (json & jsons & Hexs & Him).
  set (st' := with_local (drawn st (length (old ++ [c]) * (saltLength + ivLength)))
                (<[rpId := JSON_stringify_array (json :: jsons)]> (local st))).
  assert (Hput : CredentialsMap.put (C := with_PIN C P1) rpId c st = (Ok tt, st')).
  { unfold CredentialsMap.put, bind. rewrite exists_run.
    destruct (local st !! rpId) as [text|] eqn:Hl.
    + rewrite bool_decide_eq_true_2 by done.
      rewrite Hload. unfold ret. by rewrite Hexs.
    + rewrite bool_decide_eq_false_2 by (by intros [? ?]).
      pose proof (load_absent (C := with_PIN C P1) _ _ _ _ Hl Hload) as ->.
      unfold ret. change ([] ++ [c])%list with [c] in Hexs. by rewrite Hexs. }
  exists st'. split; [exact Hput|].
  assert (Hl : CredentialsMap.load (C := with_PIN C P2) rpId st' = (Pending, st')).
  { rewrite load_run. unfold st'. cbn [local with_local].
    rewrite lookup_insert_eq, Harr. cbn [traverse]. by rewrite Him. }
  split; [exact Hl|]. split.
  - intros credSrcId. unfold CredentialsMap.lookup, bind. by rewrite Hl.
  - intros c'. unfold CredentialsMap.put, bind. rewrite exists_run.
    rewrite bool_decide_eq_true_2; [by rewrite Hl|].
    unfold st'. cbn [local with_local]. rewrite lookup_insert_eq. by eexists.
Qed.

Lemma load_under_other_PIN_witness :
  ∃ st', CredentialsMap.put (C := with_PIN reference_constants "1234")
           (W := reference_platform) (J := reference_json_text)
           "example.com" sample_credential empty_state = (Ok tt, st') ∧
         CredentialsMap.load (C := with_PIN reference_constants "4321")
           (W := reference_platform) (J := reference_json_text)
           "example.com" st' = (Pending, st') ∧
         (∀ credSrcId,
            CredentialsMap.lookup (C := with_PIN reference_constants "4321")
              (W := reference_platform) (J := reference_json_text)
              "example.com" credSrcId st' = (Pending, st')) ∧
         (∀ c', CredentialsMap.put (C := with_PIN reference_constants "4321")
                  (W := reference_platform) (J := reference_json_text)
                  "example.com" c' st' = (Pending, st')).
Proof.
  apply (load_under_other_PIN (C := reference_constants) (W := reference_platform)
           (J := reference_json_text) "1234" "4321" "example.com"
           sample_credential sample_credential [] empty_state).
  - exact reference_base64.
  - exact reference_json.
  - exact reference_aead_correct.
  - exact reference_array_json.
  - cbn; lia.
  - cbn; lia.
  - reflexivity.
  - constructor; [split; [reflexivity|vm_compute; lia]|constructor].
  - reflexivity.
  - vm_compute. reflexivity.
Defined.

Lemma export_sealed `{C : Constants} `{W : Platform}
    (c : PublicKeyCredentialSource) (st : State) :
  extractable (src_privateKey c) = false →
  export c st
  = (Throw (DOMException "InvalidAccessError"), drawn st (saltLength + ivLength)).
Proof.
  intros Hext. unfold export, bind, getRandomValues, lift, wrapKey, exportKey, drawn.
  cbn. rewrite Hext. by rewrite Nat.add_assoc.
Qed.

Lemma export_all_sealed `{C : Constants} `{W : Platform}
    (old : list PublicKeyCredentialSource) (c : PublicKeyCredentialSource)
    (st : State) :
  base64_round_trip W → json_round_trip W → aead_correct W →
  saltLength < 256 → ivLength < 256 →
  Forall exportable old → extractable (src_privateKey c) = false →
  forM export (old ++ [c]) st
  = (Throw (DOMException "InvalidAccessError"),
     drawn st (length (old ++ [c]) * (saltLength + ivLength))).
Proof.
  intros Hb64 Hjson Haead Hs Hi Hall Hext. revert st.
  induction Hall as [|x old Hx _ IH]; intros st.
  - cbn [app forM]. unfold bind. rewrite (export_sealed c st Hext).
    cbn. by rewrite Nat.add_0_r.
  - destruct (export_then_import x st Hb64 Hjson Haead Hs Hi Hx) as (json & Hex & _).
    cbn [app forM]. unfold bind at 1. rewrite Hex.
    unfold bind at 1. rewrite IH. cbn [length]. by rewrite drawn_drawn.
Qed.

(** A [put] of a credential whose key is not extractable fails with the
    [InvalidAccessError] of its export, after the entries that are there
    were exported once more; the map is not written, and what [load]
    answers for the relying party is what it answered before. *)
Theorem put_not_extractable `{C : Constants} `{W : Platform} `{J : JsonText}
    (rpId : string) (c : PublicKeyCredentialSource)
    (old : list PublicKeyCredentialSource) (st : State) :
  base64_round_trip W → json_round_trip W → aead_correct W →
  saltLength < 256 → ivLength < 256 →
  CredentialsMap.load rpId st = (Ok old, st) →
  Forall exportable old →
  extractable (src_privateKey c) = false →
  ∃ st', CredentialsMap.put rpId c st
         = (Throw (DOMException "InvalidAccessError"), st') ∧
         local st' = local st ∧ sync st' = sync st ∧ keys st' = keys st ∧
         CredentialsMap.load rpId st' = (Ok old, st').
Proof.
  intros Hb64 Hjson Haead Hs Hi Hload Hall Hext.
  pose proof (export_all_sealed old c st Hb64 Hjson Haead Hs Hi Hall Hext) as Hexs.
  exists (drawn st (length (old ++ [c]) * (saltLength + ivLength))).
  split; [|split; [done|split; [done|split; [done|]]]].
  - unfold CredentialsMap.put, bind. rewrite exists_run.
    destruct (local st !! rpId) as [text|] eqn:Hl.
    + rewrite bool_decide_eq_true_2 by done.
      rewrite Hload. unfold ret. by rewrite Hexs.
    + rewrite bool_decide_eq_false_2 by (by intros [? ?]).
      pose proof (load_absent _ _ _ _ Hl Hload) as ->.
      unfold ret. change ([] ++ [c])%list with [c] in Hexs. by rewrite Hexs.
  - rewrite load_run in Hload |- *. cbn [local drawn].
    destruct (local st !! rpId) as [text|]; [|by injection Hload as <-].
    destruct (JSON_parse_array text) as [jsons|]; [|done].
    destruct (traverse import jsons); [|done..]. by injection Hload as <-.
Qed.

Lemma put_not_extractable_witness :
  ∃ st', CredentialsMap.put (C := reference_constants) (W := reference_platform)
           (J := reference_json_text) "example.com"
           (mkCredSrc "c2VhbGVk" (mkKey ES256 false [UsageSign] [Byte.x07])
              "example.com" None "public-key") stored_state
         = (Throw (DOMException "InvalidAccessError"), st') ∧
         local st' = local stored_state ∧ sync st' = sync stored_state ∧
         keys st' = keys stored_state ∧
         CredentialsMap.load (C := reference_constants) (W := reference_platform)
           (J := reference_json_text) "example.com" st'
         = (Ok [normal sample_credential], st').
Proof.
  apply (put_not_extractable (C := reference_constants) (W := reference_platform)
           (J := reference_json_text) "example.com"
           (mkCredSrc "c2VhbGVk" (mkKey ES256 false [UsageSign] [Byte.x07])
              "example.com" None "public-key")
           [normal sample_credential] stored_state).
  - exact reference_base64.
  - exact reference_json.
  - exact reference_aead_correct.
  - cbn; lia.
  - cbn; lia.
  - vm_compute; reflexivity.
  - constructor; [split; [reflexivity|vm_compute; lia]|constructor].
  - reflexivity.
Defined.

(** ** The backup-key slot *)

Lemma loadBackupKeys_run `{C : Constants} `{J : JsonText} (st : State) :
  PSKStorage.loadBackupKeys st
  = (match local st !! BACKUP_KEY with
     | None => Ok []
     | Some text =>
         match JSON_parse_backupKeys text with
         | Some ids => Ok ids
         | None => Pending
         end
     end, st).
Proof.
  unfold PSKStorage.loadBackupKeys, bind, chrome_storage_local_get.
  rewrite lookup_singleton_eq.
  destruct (local st !! BACKUP_KEY) as [text|]; [|done].
  unfold in_callback. by destruct (JSON_parse_backupKeys text).
Qed.

Lemma existBackupKeys_run `{C : Constants} (st : State) :
  PSKStorage.existBackupKeys st
  = (Ok (bool_decide (is_Some (local st !! BACKUP_KEY))), st).
Proof.
  unfold PSKStorage.existBackupKeys, bind, chrome_storage_local_get.
  rewrite lookup_singleton_eq. by destruct (local st !! BACKUP_KEY).
Qed.

(** [loadBackupKeys] after [storeBackupKeys] answers the ids of the keys
    that were stored, after the ids that were there unless the call
    overrides them; a call that overrides does not read what is there.
    The slot is the only thing that changes: in particular the pool in the
    synchronised store, which [popBackupKey] draws from, is not fed by
    it. *)
Theorem storeBackupKeys_then_load `{C : Constants} `{J : JsonText}
    (backupKeys : list BackupKey) (override : bool) (old : list string)
    (st : State) :
  backupKeys_json_round_trip J →
  override = true ∨ PSKStorage.loadBackupKeys st = (Ok old, st) →
  ∃ st', PSKStorage.storeBackupKeys backupKeys override st = (Ok tt, st') ∧
         PSKStorage.loadBackupKeys st'
         = (Ok ((if override then [] else old) ++ (psk_id <$> backupKeys)),
            st') ∧
         (∀ k, k ≠ BACKUP_KEY → local st' !! k = local st !! k) ∧
         sync st' = sync st ∧ keys st' = keys st ∧ cursor st' = cursor st.
Proof.
  intros Hrt Hold.
  assert (Hstore : PSKStorage.storeBackupKeys backupKeys override st
                   = (Ok tt,
                      with_local st
                        (<[BACKUP_KEY := JSON_stringify_backupKeys
                                           ((if override then [] else old)
                                            ++ (psk_id <$> backupKeys))]> (local st)))).
  { unfold PSKStorage.storeBackupKeys, bind. rewrite existBackupKeys_run.
    destruct override; cbn [negb andb].
    - by rewrite andb_false_r.
    - destruct Hold as [|Hload]; [done|]. rewrite andb_true_r.
      destruct (local st !! BACKUP_KEY) as [text|] eqn:Hl.
      + rewrite bool_decide_eq_true_2 by done. by rewrite Hload.
      + rewrite bool_decide_eq_false_2 by (by intros [? ?]).
        rewrite loadBackupKeys_run, Hl in Hload. by injection Hload as <-. }
  eexists. split; [exact Hstore|]. split.
  - rewrite loadBackupKeys_run. cbn [local with_local].
    by rewrite lookup_insert_eq, Hrt.
  - split; [|done]. intros k Hk. cbn. by rewrite lookup_insert_ne.
Qed.

Lemma storeBackupKeys_then_load_witness :
  ∃ st', PSKStorage.storeBackupKeys (C := reference_constants)
           (J := reference_json_text) sample_backup_keys false empty_state
         = (Ok tt, st') ∧
         PSKStorage.loadBackupKeys (C := reference_constants)
           (J := reference_json_text) st'
         = (Ok ([] ++ (psk_id <$> sample_backup_keys)), st') ∧
         (∀ k, k ≠ BACKUP_KEY (Constants := reference_constants) →
               local st' !! k = local empty_state !! k) ∧
         sync st' = sync empty_state ∧ keys st' = keys empty_state ∧
         cursor st' = cursor empty_state.
Proof.
  apply (storeBackupKeys_then_load (C := reference_constants)
           (J := reference_json_text) sample_backup_keys false [] empty_state).
  - exact reference_backupKeys_json.
  - right. reflexivity.
Defined.

(** ** The bundled assets *)

Lemma parse_key_reexport (es : list ExportKey) :
  parse_key <$> (reexport <$> es) = parse_key <$> es.
Proof. rewrite <- list_fmap_compose. by apply list_fmap_ext. Qed.

Lemma bundle_importable `{W : Platform} (ks : list BundledKey) :
  Forall bundled_public ks → Forall importable (bundle_entry <$> ks).
Proof. intros Hall. apply Forall_fmap. by eapply Forall_impl. Qed.

(** What the loader makes of the elements of the bundle, one by one. *)
Lemma loadBackupKeys_200 `{W : Platform} (ks : list BundledKey) (st : State) :
  loadBackupKeys (Response 200 (Some ks)) st
  = (settled (traverse parse_item (KeyItem <$> (bundle_entry <$> ks))), st).
Proof.
  unfold loadBackupKeys. cbn [Nat.eqb].
  unfold in_callback, JSON_parse_response, bind, ret.
  rewrite (forM_pure _ (λ k, parse_item (KeyItem (bundle_entry k)))).
  2:{ intros k st0. unfold parseJWK, lift, parse_item, bundle_entry.
      cbn [ek_key ek_id jwk_data]. by destruct (importKey _ _ _ _ _). }
  assert (Ht : traverse (λ k, parse_item (KeyItem (bundle_entry k))) ks
               = traverse parse_item (KeyItem <$> (bundle_entry <$> ks))).
  { induction ks as [|k ks IH]; [done|]. cbn [traverse fmap list_fmap].
    change (list_fmap _ _ KeyItem (list_fmap _ _ bundle_entry ks))
      with (KeyItem <$> (bundle_entry <$> ks)).
    by rewrite IH. }
  rewrite Ht. by destruct (traverse parse_item _).
Qed.

Lemma syncBackupKeys_run `{W : Platform} (ks : list BundledKey) (st : State) :
  Forall bundled_public ks →
  syncBackupKeys (Response 200 (Some ks)) st
  = (Ok tt,
     with_sync st (<[BACKUP := KeyItem <$> (reexport <$> (bundle_entry <$> ks))]>
                     (sync st))).
Proof.
  intros Hall. unfold syncBackupKeys, bind.
  rewrite loadBackupKeys_200, traverse_parse_keys by by apply bundle_importable.
  cbn [settled]. by rewrite storePSKKeys_run.
Qed.

Lemma syncBackupKeys_unimportable `{W : Platform} (ks : list BundledKey) (st : State) :
  Exists (λ k, ¬ bundled_public k) ks →
  syncBackupKeys (Response 200 (Some ks)) st = (Pending, st).
Proof.
  intros Hex. unfold syncBackupKeys, bind.
  rewrite loadBackupKeys_200, traverse_unimportable; [done|].
  apply Exists_fmap. by eapply Exists_impl.
Qed.

(** As many pops as the pool has keys return all of them, last first, and
    leave the empty pool. *)
Lemma popN_all `{W : Platform} (identifier : string) (n : nat) :
  ∀ (es : list ExportKey) (st : State),
    length es = n →
    Forall importable es →
    sync st !! identifier = Some (KeyItem <$> es) →
    ∃ st', popN identifier n st = (Ok (rev (parse_key <$> es)), st') ∧
           sync st' !! identifier = Some [] ∧
           local st' = local st ∧ keys st' = keys st.
Proof.
  induction n as [|n IH]; intros es st Hlen Hall Hpool.
  - destruct es; [|done]. by exists st.
  - destruct es as [|e es _] using rev_ind; [done|].
    rewrite length_app in Hlen. cbn in Hlen.
    cbn [popN]. unfold bind. rewrite (popPSKKey_run _ _ _ _ Hpool Hall).
    set (st1 := with_sync st _).
    destruct (IH (reexport <$> es) st1) as (st' & Hrun & Hempty & Hlocal & Hkeys).
    { rewrite length_fmap. lia. }
    { apply importable_reexport. by apply Forall_app in Hall as [? _]. }
    { unfold st1. cbn. apply lookup_insert_eq. }
    exists st'. rewrite Hrun, parse_key_reexport.
    rewrite fmap_app, rev_app_distr. by repeat split.
Qed.

(** A synchronisation of a backup bundle of public keys that is answered
    with status 200 replaces the backup pool, whatever it held, by the
    keys of the bundle in their order, each under its [kid]: they are what
    [fetchPSKKeys] reads next, and the pops that follow hand them out
    last first until the pool is empty.  Keys that were popped before are
    in the pool again when the bundle still holds them.  The other slots
    of the synchronised store and the local stores stay as they are. *)
Theorem syncBackupKeys_refills_pool `{W : Platform} (ks : list BundledKey)
    (st : State) :
  Forall bundled_public ks → refills_pool ks st.
Proof.
  intros Hall.
  pose proof (syncBackupKeys_run ks st Hall) as Hsync.
  set (st' := with_sync st _) in Hsync.
  assert (Hpool : sync st' !! BACKUP
                  = Some (KeyItem <$> (reexport <$> (bundle_entry <$> ks)))).
  { unfold st'. cbn. apply lookup_insert_eq. }
  pose proof (importable_reexport _ (bundle_importable ks Hall)) as Himp.
  destruct (popN_all BACKUP (length ks) (reexport <$> (bundle_entry <$> ks)) st')
    as (st'' & Hpops & Hempty & _); [by rewrite !length_fmap|done|done|].
  exists st', st''. split; [exact Hsync|]. split.
  { rewrite fetchPSKKeys_run, Hpool, traverse_parse_keys by done.
    cbn [settled]. by rewrite parse_key_reexport. }
  split.
  { rewrite <- !list_fmap_compose. by apply list_fmap_ext. }
  split.
  { intros k Hk. unfold st'. cbn. by rewrite lookup_insert_ne. }
  do 2 (split; [done|]).
  split; [|done]. by rewrite Hpops, parse_key_reexport.
Qed.

Lemma syncBackupKeys_refills_pool_witness :
  refills_pool (W := reference_platform) sample_bundle pools_state.
Proof.
  apply (syncBackupKeys_refills_pool (W := reference_platform) sample_bundle
           pools_state).
  by repeat constructor.
Defined.

Lemma loadDelegations_bundle (raws : list RawDelegation) (st : State) :
  loadDelegations (Response 200 (Some raws)) st
  = (Ok (delegation_of <$> raws), st).
Proof. reflexivity. Qed.

Lemma filter_delegates (credentialId : string) (raws : list RawDelegation) :
  negb (Nat.eqb (length (List.filter
                           (λ x, loose_eq (item_backupId x) credentialId)
                           (DelegationItem <$> (delegation_of <$> raws)))) 0)
  = delegates credentialId raws.
Proof.
  unfold delegates. induction raws as [|r raws IH]; [done|]. cbn.
  by destruct (String.eqb (raw_cred_id r) credentialId).
Qed.

(** A synchronisation of the delegation bundle that is answered with
    status 200 replaces the stored delegations by those of the bundle, in
    their order, each with the [kid] of its public key as the id of the
    replacement.  From then on [getDelegation] answers the first
    delegation of the bundle for every backup credential that the bundle
    has a delegation for, and [null] for any other. *)
Theorem syncDelegation_then_getDelegation (raws : list RawDelegation) (st : State) :
  ∃ st',
    syncDelegation (Response 200 (Some raws)) st = (Ok tt, st') ∧
    fetchDelegations st' = (Ok (DelegationItem <$> (delegation_of <$> raws)), st') ∧
    (∀ k, k ≠ DELEGATION → sync st' !! k = sync st !! k) ∧
    local st' = local st ∧ keys st' = keys st ∧
    ∀ credentialId,
      getDelegation credentialId st'
      = (Ok (if delegates credentialId raws
             then DelegationItem <$> head (delegation_of <$> raws)
             else None), st').
Proof.
  eexists. split; [reflexivity|].
  split.
  { unfold fetchDelegations, bind, chrome_storage_sync_get. cbn [sync].
    by rewrite lookup_insert_eq. }
  split.
  { intros k Hk. cbn. by rewrite lookup_insert_ne. }
  do 2 (split; [done|]).
  intros credentialId. rewrite getDelegation_run. cbn [sync].
  rewrite lookup_insert_eq. unfold found_delegation.
  rewrite filter_delegates. by destruct raws.
Qed.

(** A synchronisation that does not succeed changes nothing.  With an
    answer of another status than 200 its promise is rejected with the
    status, a number.  When the request is not answered, when the body is
    no JSON text, and when the backup bundle holds a key that [importKey]
    does not accept without usages (a private key, a key of another
    kind), the exception is raised inside the handler and the promise
    stays pending. *)
Theorem sync_fails_quietly `{W : Platform} (st : State) :
  (∀ status body, status ≠ 200 →
     syncBackupKeys (Response status body) st = (Throw (Number status), st)) ∧
  (∀ status body, status ≠ 200 →
     syncDelegation (Response status body) st = (Throw (Number status), st)) ∧
  (∀ status body, status ≠ 200 →
     RecoveryTsAssets.syncBackupKeys (Response status body) st
     = (Throw (Number status), st)) ∧
  syncBackupKeys NoResponse st = (Pending, st) ∧
  syncDelegation NoResponse st = (Pending, st) ∧
  RecoveryTsAssets.syncBackupKeys NoResponse st = (Pending, st) ∧
  syncBackupKeys (Response 200 None) st = (Pending, st) ∧
  syncDelegation (Response 200 None) st = (Pending, st) ∧
  RecoveryTsAssets.syncBackupKeys (Response 200 None) st = (Pending, st) ∧
  (∀ ks, Exists (λ k, ¬ bundled_public k) ks →
     syncBackupKeys (Response 200 (Some ks)) st = (Pending, st)).
Proof.
  split; [|split; [|split]].
  - intros status body Hs. apply Nat.eqb_neq in Hs.
    unfold syncBackupKeys, loadBackupKeys, bind. by rewrite Hs.
  - intros status body Hs. apply Nat.eqb_neq in Hs.
    unfold syncDelegation, loadDelegations, bind. by rewrite Hs.
  - intros status body Hs. apply Nat.eqb_neq in Hs.
    unfold RecoveryTsAssets.syncBackupKeys, RecoveryTsAssets.loadBackupKeys, bind.
    by rewrite Hs.
  - do 6 (split; [reflexivity|]). intros ks. apply syncBackupKeys_unimportable.
Qed.

Lemma legacy_syncBackupKeys_run (ks : list BundledKey) (st : State) :
  RecoveryTsAssets.syncBackupKeys (Response 200 (Some ks)) st
  = (Ok tt,
     with_sync st (<["backup" := KeyItem <$> (bundle_entry <$> ks)]> (sync st))).
Proof.
  unfold RecoveryTsAssets.syncBackupKeys, RecoveryTsAssets.loadBackupKeys,
    in_callback, JSON_parse_response, bind, ret, RecoveryTs.storeBackupKeys,
    chrome_storage_sync_set, with_sync.
  cbn. by rewrite <- list_fmap_compose.
Qed.

Lemma removelast_fmap {A B} (f : A → B) (l : list A) :
  removelast (f <$> l) = f <$> removelast l.
Proof.
  induction l as [|x [|y l] IH]; [done..|].
  cbn [removelast fmap list_fmap] in *. by rewrite IH.
Qed.

(** The older module stores the keys of the bundle as they are read,
    whatever they are.  Its pop then returns the last key of the bundle,
    or [undefined] for an empty bundle, and keeps the others.  The pool it
    wrote reads, in the newer module, as the pool that the newer
    synchronisation writes when the bundle holds public keys; with a key
    in it that does not import, the newer module does not read it at
    all. *)
Theorem legacy_syncBackupKeys_then_pop `{W : Platform} (ks : list BundledKey)
    (st : State) :
  ∃ st1 st2,
    RecoveryTsAssets.syncBackupKeys (Response 200 (Some ks)) st = (Ok tt, st1) ∧
    RecoveryTs.popBackupKey "backup" st1
    = (Ok (KeyItem <$> last (bundle_entry <$> ks)), st2) ∧
    sync st2 !! "backup" = Some (KeyItem <$> removelast (bundle_entry <$> ks)) ∧
    (Forall bundled_public ks →
     ∃ st1', syncBackupKeys (Response 200 (Some ks)) st = (Ok tt, st1') ∧
             fst (fetchPSKKeys BACKUP st1) = fst (fetchPSKKeys BACKUP st1') ∧
             fst (fetchPSKKeys BACKUP st1)
             = Ok (parse_key <$> (bundle_entry <$> ks))) ∧
    (Exists (λ k, ¬ bundled_public k) ks →
     fetchPSKKeys BACKUP st1 = (Pending, st1)).
Proof.
  pose proof (legacy_syncBackupKeys_run ks st) as Hsync.
  set (st1 := with_sync st _) in Hsync.
  assert (Hpool : sync st1 !! "backup" = Some (KeyItem <$> (bundle_entry <$> ks))).
  { unfold st1. cbn. apply lookup_insert_eq. }
  eexists st1, _. split; [exact Hsync|]. split.
  { rewrite (legacy_popBackupKey_run _ _ _ Hpool), fmap_last. reflexivity. }
  split.
  { cbn [sync with_sync]. by rewrite lookup_insert_eq, removelast_fmap. }
  split.
  - intros Hall. eexists. split; [by apply syncBackupKeys_run|].
    pose proof (bundle_importable ks Hall) as Himp.
    rewrite !fetchPSKKeys_run. change BACKUP with "backup". rewrite Hpool.
    cbn [sync with_sync fst]. rewrite lookup_insert_eq.
    rewrite !traverse_parse_keys by (done || by apply importable_reexport).
    by rewrite parse_key_reexport.
  - intros Hex. rewrite fetchPSKKeys_run. change BACKUP with "backup".
    rewrite Hpool, traverse_unimportable; [done|].
    apply Exists_fmap. by eapply Exists_impl.
Qed.

(** ** Pools, written and read back *)

Lemma storePSKKeys_extractable (identifier : string) (psk : list PSKKey) (st : State) :
  Forall (λ k, extractable (psk_key k) = true) psk →
  storePSKKeys identifier psk st
  = (Ok tt, with_sync st (<[identifier := KeyItem <$> (stored_entry <$> psk)]> (sync st))).
Proof.
  intros Hall. unfold storePSKKeys, bind.
  set (g := λ k : PSKKey,
         match exportKey "jwk" (psk_key k) with
         | Ok data => Ok (mkExportKey (mkJWK None data) (psk_id k))
         | Throw e => Throw e
         | Pending => Pending
         end).
  rewrite (forM_pure _ g).
  2:{ intros k st0. unfold exportKey_jwk, bind, lift, g.
      by destruct (exportKey "jwk" (psk_key k)). }
  assert (Ht : traverse g psk = Ok (stored_entry <$> psk)).
  { induction Hall as [|k l Hk _ IH]; cbn; [done|].
    unfold g at 1, exportKey. by rewrite Hk, IH. }
  by rewrite Ht.
Qed.

Lemma storePSKKeys_sealed (identifier : string) (psk : list PSKKey) (st : State) :
  Exists sealed psk →
  storePSKKeys identifier psk st = (Throw (DOMException "InvalidAccessError"), st).
Proof.
  intros Hex. unfold storePSKKeys, bind.
  set (g := λ k : PSKKey,
         match exportKey "jwk" (psk_key k) with
         | Ok data => Ok (mkExportKey (mkJWK None data) (psk_id k))
         | Throw e => Throw e
         | Pending => Pending
         end).
  rewrite (forM_pure _ g).
  2:{ intros k st0. unfold exportKey_jwk, bind, lift, g.
      by destruct (exportKey "jwk" (psk_key k)). }
  assert (Ht : traverse g psk = Throw (DOMException "InvalidAccessError")).
  { induction Hex as [k l Hk|k l _ IH]; cbn.
    - unfold g at 1, exportKey. by rewrite Hk.
    - unfold g at 1, exportKey. destruct (extractable (psk_key k)); [|done].
      by rewrite IH. }
  by rewrite Ht.
Qed.

(** What is written to a pool of public keys is what is read from it
    next: the same ids and key material, in the same order.  Of a key
    nothing else is kept: it comes back extractable, for ECDSA on P-256
    and with no usage.  A pool that holds a key which is no public key of
    that algorithm (a private key, as the recovery keys are) is written
    all the same, and is then never read: [fetchPSKKeys] does not settle.
    One key that is not extractable makes the whole [storePSKKeys] fail,
    and then nothing is written: the pool stays as it was. *)
Theorem storePSKKeys_then_fetch `{W : Platform} (identifier : string)
    (psk : list PSKKey) (st : State) :
  (Forall (λ k, extractable (psk_key k) = true) psk →
   ∃ st', storePSKKeys identifier psk st = (Ok tt, st') ∧
          sync st' !! identifier = Some (KeyItem <$> (stored_entry <$> psk)) ∧
          (∀ k, k ≠ identifier → sync st' !! k = sync st !! k) ∧
          local st' = local st ∧ keys st' = keys st ∧
          (Forall public_material psk →
           fetchPSKKeys identifier st' = (Ok (as_fetched <$> psk), st')) ∧
          (Exists (λ k, ¬ public_material k) psk →
           fetchPSKKeys identifier st' = (Pending, st'))) ∧
  (Exists sealed psk →
   storePSKKeys identifier psk st = (Throw (DOMException "InvalidAccessError"), st)).
Proof.
  split; [|apply storePSKKeys_sealed].
  intros Hall. eexists. split; [by apply storePSKKeys_extractable|].
  split; [cbn; apply lookup_insert_eq|].
  split; [intros k Hk; cbn; by rewrite lookup_insert_ne|].
  do 2 (split; [done|]).
  split.
  - intros Hpub. rewrite fetchPSKKeys_run. cbn [sync with_sync].
    rewrite lookup_insert_eq, traverse_parse_keys.
    + cbn [settled]. by rewrite <- list_fmap_compose.
    + apply Forall_fmap. by eapply Forall_impl.
  - intros Hex. rewrite fetchPSKKeys_run. cbn [sync with_sync].
    rewrite lookup_insert_eq, traverse_unimportable; [done|].
    apply Exists_fmap. by eapply Exists_impl.
Qed.

(** A signing key and a public key in one pool: the pool is stored, and
    not read back. *)
Example storePSKKeys_private_key :
  ∃ st', storePSKKeys RECOVERY
           [mkPSKKey (mkKey ES256 true [UsageSign] [Byte.x64; Byte.x0c]) "cjE";
            mkPSKKey (mkKey ES256 true [] [Byte.x0d]) "cjI"] empty_state
         = (Ok tt, st') ∧
         fetchPSKKeys (W := reference_platform) RECOVERY st' = (Pending, st').
Proof. eexists. split; vm_compute; reflexivity. Qed.

(** ** The recovery flow, continued *)

Lemma found_delegation_some (credentialId : string) (del : list JsonItem) :
  (∃ x, x ∈ del ∧ loose_eq (item_backupId x) credentialId = true) →
  found_delegation credentialId del = del !! 0.
Proof.
  intros (x & Hx & Hm). unfold found_delegation.
  assert (Hf : List.filter (λ x, loose_eq (item_backupId x) credentialId) del ≠ []).
  { intros Hnil. assert (Hin : In x (List.filter
                                       (λ x, loose_eq (item_backupId x) credentialId) del)).
    { apply List.filter_In. split; [by apply list_elem_of_In|done]. }
    by rewrite Hnil in Hin. }
  by destruct (List.filter _ del).
Qed.

Lemma found_key_none (credentialId : option string) (rks : list PSKKey) :
  (∀ k, k ∈ rks → credentialId ≠ Some (psk_id k)) →
  found_key credentialId rks = None.
Proof.
  intros Hno. unfold found_key.
  set (f := λ x : PSKKey, match credentialId with
                          | Some c => String.eqb (psk_id x) c
                          | None => false
                          end).
  assert (Hf : List.filter f rks = []).
  { induction rks as [|k rks IH]; [done|]. cbn.
    assert (Hk : f k = false).
    { unfold f. destruct credentialId as [c|]; [|done].
      apply String.eqb_neq. intros Heq. apply (Hno k); [by left|by rewrite Heq]. }
    rewrite Hk. apply IH. intros k' Hk'. apply Hno. by right. }
  by rewrite Hf.
Qed.

(** The second gate of the recovery: when the stored delegations hold one
    for the first offered id, but the recovery pool, which is read (it
    holds public keys), has no key under the replacement id of the
    delegation that is taken (the first stored one), the flow ends in a
    [TypeError] before anything is persisted or signed.  A delegation
    whose public key carries no [kid] is such a case, whatever the pool
    holds. *)
Theorem recover_without_recovery_key `{C : Constants} `{W : Platform}
    (origin pin : string) (opts : PublicKeyCredentialRequestOptions)
    (c : PublicKeyCredentialDescriptor) (creds : list PublicKeyCredentialDescriptor)
    (d0 : JsonItem) (dels : list JsonItem) (es : list ExportKey) (st : State) :
  allowCredentials opts = Some (c :: creds) →
  sync st !! DELEGATION = Some (d0 :: dels) →
  (∃ x, x ∈ d0 :: dels ∧
        loose_eq (item_backupId x) (byteArrayToBase64 (desc_id c) true) = true) →
  sync st !! RECOVERY = Some (KeyItem <$> es) →
  Forall importable es →
  (∀ e, e ∈ es → item_replacementId d0 ≠ Some (ek_id e)) →
  recover origin opts pin st = (Throw TypeError, st).
Proof.
  intros Hallow Hdel Hmatch Hrec Himp Hno.
  unfold recover. rewrite Hallow. cbn [lookup list_lookup].
  unfold bind at 1. rewrite getRecoveryOptions_run, Hdel, Hrec.
  unfold recovery_options. rewrite (found_delegation_some _ _ Hmatch).
  cbn [lookup list_lookup]. rewrite traverse_parse_keys by done.
  rewrite found_key_none; [done|].
  intros k Hk. apply list_elem_of_fmap in Hk as (e & -> & He). by apply Hno.
Qed.

Lemma recover_without_recovery_key_witness :
  recover (C := reference_constants) (W := reference_platform)
    "https://example.com" (sample_request ["YjE"] true) "1234"
    (with_sync recovery_state
       (<[RECOVERY := KeyItem <$> [mkExportKey (sample_jwk Byte.x0d None) "cjI"]]>
          (sync recovery_state)))
  = (Throw TypeError,
     with_sync recovery_state
       (<[RECOVERY := KeyItem <$> [mkExportKey (sample_jwk Byte.x0d None) "cjI"]]>
          (sync recovery_state))).
Proof.
  apply (recover_without_recovery_key (C := reference_constants)
           (W := reference_platform) "https://example.com" "1234"
           (sample_request ["YjE"] true) (mkDescriptor (TextEncoder_encode "YjE")) []
           (DelegationItem delegation_1) [DelegationItem delegation_2]
           [mkExportKey (sample_jwk Byte.x0d None) "cjI"]).
  - reflexivity.
  - reflexivity.
  - exists (DelegationItem delegation_1). split; [by left|reflexivity].
  - reflexivity.
  - by repeat constructor.
  - intros e He. apply list_elem_of_singleton in He as ->. discriminate.
Defined.

(** With the recovery pool as [createRecoveryKeys] writes it, the exported
    private halves of its key pairs, no recovery ends: once a delegation
    is found for the first offered id, the flow waits for the recovery
    pool, which [fetchPSKKeys] never gives, since a private key does not
    import without usages.  It returns no assertion, raises no error and
    persists nothing; a request with the recovery extension never comes
    back. *)
Theorem recover_private_recovery_pool `{C : Constants} `{W : Platform}
    (origin pin : string) (opts : PublicKeyCredentialRequestOptions)
    (c : PublicKeyCredentialDescriptor) (creds : list PublicKeyCredentialDescriptor)
    (d0 : JsonItem) (dels : list JsonItem) (es : list ExportKey) (st : State) :
  allowCredentials opts = Some (c :: creds) →
  hasExtension (req_extensions opts) PSK = true →
  sync st !! DELEGATION = Some (d0 :: dels) →
  (∃ x, x ∈ d0 :: dels ∧
        loose_eq (item_backupId x) (byteArrayToBase64 (desc_id c) true) = true) →
  sync st !! RECOVERY = Some (KeyItem <$> es) →
  Exists (λ e, ¬ importable e) es →
  recover origin opts pin st = (Pending, st) ∧
  processCredentialRequest origin opts pin st = (Pending, st).
Proof.
  intros Hallow Hext Hdel Hmatch Hrec Hex.
  assert (Hrun : recover origin opts pin st = (Pending, st)).
  { unfold recover. rewrite Hallow. cbn [lookup list_lookup].
    unfold bind at 1. rewrite getRecoveryOptions_run, Hdel, Hrec.
    unfold recovery_options. rewrite (found_delegation_some _ _ Hmatch).
    cbn [lookup list_lookup].
    pose proof (traverse_unimportable es Hex) as Hpend.
    by destruct (traverse parse_item (KeyItem <$> es)). }
  split; [exact Hrun|].
  unfold processCredentialRequest. by rewrite Hallow, Hext.
Qed.

Lemma recover_private_recovery_pool_witness :
  recover (C := reference_constants) (W := reference_platform)
    "https://example.com" (sample_request ["YjE"] true) "1234" private_pool_state
  = (Pending, private_pool_state) ∧
  processCredentialRequest (C := reference_constants) (W := reference_platform)
    "https://example.com" (sample_request ["YjE"] true) "1234" private_pool_state
  = (Pending, private_pool_state).
Proof.
  apply (recover_private_recovery_pool (C := reference_constants)
           (W := reference_platform) "https://example.com" "1234"
           (sample_request ["YjE"] true) (mkDescriptor (TextEncoder_encode "YjE")) []
           (DelegationItem delegation_1) [DelegationItem delegation_2]
           private_recovery_pool).
  - reflexivity.
  - reflexivity.
  - reflexivity.
  - exists (DelegationItem delegation_1). split; [by left|reflexivity].
  - reflexivity.
  - apply Exists_cons_hd. vm_compute. discriminate.
Defined.

(** ** Requests without candidates *)

(** A request that names no list of credentials is answered with [null],
    with or without the recovery extension.  An empty list is no such
    request: it fails, with [CredentialNotFound] in the assertion flow and
    with the [TypeError] of reading the first, missing, element in the
    recovery flow.  Nothing is read from or written to the stores in
    either case. *)
Theorem request_without_candidates `{C : Constants} `{W : Platform}
    (origin pin : string) (opts : PublicKeyCredentialRequestOptions) (st : State) :
  (allowCredentials opts = None →
   processCredentialRequest origin opts pin st = (Ok None, st) ∧
   recover origin opts pin st = (Ok None, st)) ∧
  (allowCredentials opts = Some [] →
   processCredentialRequest origin opts pin st
   = (Throw (if hasExtension (req_extensions opts) PSK
             then TypeError else CredentialNotFound []), st) ∧
   recover origin opts pin st = (Throw TypeError, st)).
Proof.
  split; intros Hallow; unfold processCredentialRequest, recover; rewrite Hallow.
  - done.
  - by destruct (hasExtension _ _).
Qed.
